(** * cruzbit peer manager: connection sets, address validation and admission

    A shallow embedding of [peer_manager.go].  The two peer maps are finite
    maps from address strings to peer handles, Go's [int] is [Z], and the
    collaborators the file only calls (resolver, peer storage, the peer
    protocol handler, the websocket upgrader) are section variables.
    [log.Printf] calls write to the process log only and are left out. *)

From Stdlib Require Import ZArith Ascii String DecimalString HexadecimalString.
From Stdlib.Strings Require Import Byte.
From stdpp Require Import gmap strings list fin_maps.

Open Scope string_scope.
Open Scope Z_scope.

(** ** Data model *)

(** A [*Peer]: the identity of one protocol handler, in order of construction. *)
Definition Peer : Type := nat.

(** [net.IP] and [net.IPMask] are byte slices. *)
Definition IP : Type := list Byte.byte.
Definition IPMask : Type := list Byte.byte.

Record IPNet := mkIPNet { net_IP : IP; net_Mask : IPMask }.

(** The fields of [PeerManager] that the functions below read or write.
    The locks guard the two maps; every function here runs with the lock of
    the map it touches held from entry to exit, so one call is one step. *)
Record PeerManager := mkPeerManager {
  myIP : string;
  peer : string;
  port : Z;
  accept : bool;
  irc : bool;
  inPeers : gmap string Peer;
  outPeers : gmap string Peer;
  peerNonce : string;
  open : bool;
  privateIPBlocks : list IPNet
}.

Definition with_outPeers (p : PeerManager) (m : gmap string Peer) : PeerManager :=
  mkPeerManager (myIP p) (peer p) (port p) (accept p) (irc p)
                (inPeers p) m (peerNonce p) (open p) (privateIPBlocks p).

Definition with_inPeers (p : PeerManager) (m : gmap string Peer) : PeerManager :=
  mkPeerManager (myIP p) (peer p) (port p) (accept p) (irc p)
                m (outPeers p) (peerNonce p) (open p) (privateIPBlocks p).

(** Go's [len] on a map, as an [int]. *)
Definition len (m : gmap string Peer) : Z := Z.of_nat (size m).
Arguments len : simpl never.

(** ** Library functions the validator calls

    [net.SplitHostPort], [strconv.ParseUint], [net.IP.To4], [net.IP.String],
    [net.IPNet.Contains] and [net.CIDRMask] belong to the Go standard library.
    They are written here after the library's own code so that the validator can
    be run on concrete addresses. *)

Definition byteOf (c : ascii) : Z := Z.of_N (N_of_ascii c).

(** [bytealg.IndexByteString]: [None] stands for the result -1. *)
Fixpoint IndexByteString (s : string) (c : ascii) : option nat :=
  match s with
  | EmptyString => None
  | String a rest =>
      if Ascii.eqb a c then Some 0%nat
      else match IndexByteString rest c with
           | Some i => Some (S i)
           | None => None
           end
  end.

Fixpoint LastIndexByteString (s : string) (c : ascii) : option nat :=
  match s with
  | EmptyString => None
  | String a rest =>
      match LastIndexByteString rest c with
      | Some i => Some (S i)
      | None => if Ascii.eqb a c then Some 0%nat else None
      end
  end.

(** [s[lo:hi]] and [s[lo:]]. *)
Definition slice (s : string) (lo hi : nat) : string := substring lo (hi - lo) s.
Definition sliceFrom (s : string) (lo : nat) : string :=
  substring lo (String.length s - lo) s.

Inductive AddrError :=
| missingPort
| tooManyColons
| missingBracket
| unexpectedOpenBracket
| unexpectedCloseBracket.

(** The bracketed and the plain branch of [SplitHostPort] yield the host and
    the two positions [j], [k] from which stray brackets are searched. *)
Definition splitHost (hostport : string) (i : nat) : AddrError + (string * nat * nat) :=
  match String.get 0 hostport with
  | Some "["%char =>
      match IndexByteString hostport "]" with
      | None => inl missingBracket
      | Some end_ =>
          if (end_ + 1 =? String.length hostport)%nat then inl missingPort
          else if (end_ + 1 =? i)%nat then inr (slice hostport 1 end_, 1%nat, (end_ + 1)%nat)
          else match String.get (end_ + 1) hostport with
               | Some ":"%char => inl tooManyColons
               | _ => inl missingPort
               end
      end
  | _ =>
      let host := slice hostport 0 i in
      match IndexByteString host ":" with
      | Some _ => inl tooManyColons
      | None => inr (host, 0%nat, 0%nat)
      end
  end.

Definition SplitHostPort (hostport : string) : AddrError + (string * string) :=
  match LastIndexByteString hostport ":" with
  | None => inl missingPort
  | Some i =>
      match splitHost hostport i with
      | inl e => inl e
      | inr (host, j, k) =>
          match IndexByteString (sliceFrom hostport j) "[" with
          | Some _ => inl unexpectedOpenBracket
          | None =>
              match IndexByteString (sliceFrom hostport k) "]" with
              | Some _ => inl unexpectedCloseBracket
              | None => inr (host, sliceFrom hostport (i + 1))
              end
          end
      end
  end.

Inductive NumError := ErrSyntax | ErrRange.

Definition maxUint64 : Z := 2 ^ 64 - 1.

(** [lower(c)] of strconv: [c | ('x' - 'X')]. *)
Definition lower (c : Z) : Z := Z.lor c 32.

(** The loop of [ParseUint] at base 10 ([base0] is false, so an underscore is
    a syntax error); [n] is a uint64 and its arithmetic wraps. *)
Fixpoint parseUintLoop (s : string) (cutoff maxVal n : Z) : NumError + Z :=
  match s with
  | EmptyString => inr n
  | String ch rest =>
      let c := byteOf ch in
      let digit :=
        if (48 <=? c) && (c <=? 57) then Some (c - 48)
        else if (97 <=? lower c) && (lower c <=? 122) then Some (lower c - 97 + 10)
        else None in
      match digit with
      | None => inl ErrSyntax
      | Some d =>
          if 10 <=? d then inl ErrSyntax
          else if cutoff <=? n then inl ErrRange
          else
            let n10 := (n * 10) mod 2 ^ 64 in
            let n1 := (n10 + d) mod 2 ^ 64 in
            if (n1 <? n10) || (maxVal <? n1) then inl ErrRange
            else parseUintLoop rest cutoff maxVal n1
      end
  end.

(** [strconv.ParseUint(s, 10, bitSize)] for [0 < bitSize <= 64]. *)
Definition ParseUint (s : string) (bitSize : Z) : NumError + Z :=
  if String.eqb s "" then inl ErrSyntax
  else parseUintLoop s (maxUint64 / 10 + 1) (2 ^ bitSize - 1) 0.

(** *** Addresses and networks *)

Definition byteOfN (n : N) : Byte.byte :=
  match Byte.of_N (n mod 256) with Some b => b | None => x00 end.

Definition band (a b : Byte.byte) : N := N.land (Byte.to_N a) (Byte.to_N b).

Definition isZeros (bs : list Byte.byte) : bool :=
  forallb (fun b => Byte.eqb b x00) bs.

(** [ip.To4()]; [None] stands for the nil slice. *)
Definition To4 (ip : IP) : option IP :=
  if (length ip =? 4)%nat then Some ip
  else if (length ip =? 16)%nat && isZeros (take 10 ip)
          && match drop 10 ip with
             | b10 :: b11 :: _ => Byte.eqb b10 xff && Byte.eqb b11 xff
             | _ => false
             end
       then Some (take 4 (drop 12 ip))
       else None.

Definition itoa (n : N) : string := DecimalString.NilZero.string_of_uint (N.to_uint n).

(** Lower-case hexadecimal without leading zeros, as [appendHex]. *)
Definition hexOf (n : N) : string :=
  HexadecimalString.NilZero.string_of_uint (N.to_hex_uint n).

Definition hexDigit (n : N) : string := hexOf (n mod 16).

(** [hexString]: two digits per byte. *)
Fixpoint hexString (bs : list Byte.byte) : string :=
  match bs with
  | [] => ""
  | b :: rest =>
      hexDigit (Byte.to_N b / 16) +:+ hexDigit (Byte.to_N b) +:+ hexString rest
  end.

(** The eight 16-bit fields of a 16-byte address. *)
Fixpoint groups (bs : list Byte.byte) : list N :=
  match bs with
  | hi :: lo :: rest => (Byte.to_N hi * 256 + Byte.to_N lo)%N :: groups rest
  | _ => []
  end.

Fixpoint zeroRun (gs : list N) : nat :=
  match gs with
  | 0%N :: rest => S (zeroRun rest)
  | _ => 0%nat
  end.

(** The first longest run of at least two zero fields, as [start, end). *)
Fixpoint longestZeros (gs : list N) (i : nat) (best : option (nat * nat))
  : option (nat * nat) :=
  match gs with
  | [] => best
  | _ :: rest =>
      let l := zeroRun gs in
      let cur := match best with Some (s, e) => (e - s)%nat | None => 0%nat end in
      let best' := if (2 <=? l)%nat && (cur <? l)%nat then Some (i, (i + l)%nat) else best in
      longestZeros rest (S i) best'
  end.

(** The printing loop over field index [i]; it runs at most eight times. *)
Fixpoint printGroups (fuel : nat) (gs : list N) (zeros : option (nat * nat)) (i : nat)
  : string :=
  match fuel with
  | O => ""
  | S fuel' =>
      if (8 <=? i)%nat then ""
      else
        let field k := hexOf (nth k gs 0%N) in
        match zeros with
        | Some (s, e) =>
            if (i =? s)%nat then
              "::" +:+ (if (8 <=? e)%nat then ""
                        else field e +:+ printGroups fuel' gs zeros (S e))
            else (if (0 <? i)%nat then ":" else "") +:+ field i
                 +:+ printGroups fuel' gs zeros (S i)
        | None =>
            (if (0 <? i)%nat then ":" else "") +:+ field i
            +:+ printGroups fuel' gs zeros (S i)
        end
  end.

(** [ip.String()]. *)
Definition IP_String (ip : IP) : string :=
  if (length ip =? 0)%nat then "<nil>"
  else match To4 ip with
       | Some [a; b; c; d] =>
           itoa (Byte.to_N a) +:+ "." +:+ itoa (Byte.to_N b) +:+ "."
           +:+ itoa (Byte.to_N c) +:+ "." +:+ itoa (Byte.to_N d)
       | _ =>
           if negb (length ip =? 16)%nat then "?" +:+ hexString ip
           else let gs := groups ip in printGroups 8 gs (longestZeros gs 0 None) 0
       end.

(** [net.CIDRMask(ones, 8*l)]. *)
Fixpoint CIDRMask (l : nat) (n : N) : IPMask :=
  match l with
  | O => []
  | S l' =>
      if (8 <=? n)%N then xff :: CIDRMask l' (n - 8)%N
      else byteOfN (N.lxor 255 (N.shiftr 255 n)) :: CIDRMask l' 0%N
  end.

Fixpoint maskBytes (ip : IP) (m : IPMask) : IP :=
  match ip, m with
  | a :: ip', b :: m' => byteOfN (band a b) :: maskBytes ip' m'
  | _, _ => []
  end.

(** The network [net.ParseCIDR] returns for an address of 4 or 16 bytes and
    a prefix length: the address masked, and the mask. *)
Definition cidr (ip : IP) (ones : N) : IPNet :=
  let m := CIDRMask (length ip) ones in mkIPNet (maskBytes ip m) m.

Definition networkNumberAndMask (n : IPNet) : IP * IPMask :=
  let ip := match To4 (net_IP n) with Some x => Some x
            | None => if (length (net_IP n) =? 16)%nat then Some (net_IP n) else None
            end in
  match ip with
  | None => ([], [])
  | Some ip =>
      if (length (net_Mask n) =? 4)%nat then
        if (length ip =? 4)%nat then (ip, net_Mask n) else ([], [])
      else if (length (net_Mask n) =? 16)%nat then
        if (length ip =? 4)%nat then (ip, drop 12 (net_Mask n)) else (ip, net_Mask n)
      else ([], [])
  end.

Fixpoint sameMasked (nn : IP) (m : IPMask) (ip : IP) : bool :=
  match nn, m, ip with
  | a :: nn', b :: m', c :: ip' => (band a b =? band c b)%N && sameMasked nn' m' ip'
  | _, _, _ => true
  end.

(** [n.Contains(ip)]. *)
Definition Contains (n : IPNet) (ip : IP) : bool :=
  let '(nn, m) := networkNumberAndMask n in
  let ip := match To4 ip with Some x => x | None => ip end in
  if negb (length ip =? length nn)%nat then false
  else sameMasked nn m ip.

(** The seven blocks [NewPeerManager] computes. *)
Definition zeros16 : IP := repeat x00 16.

Definition newPrivateIPBlocks : list IPNet :=
  [ cidr [x7f; x00; x00; x00] 8;                 (* 127.0.0.0/8 *)
    cidr [x0a; x00; x00; x00] 8;                 (* 10.0.0.0/8 *)
    cidr [xac; x10; x00; x00] 12;                (* 172.16.0.0/12 *)
    cidr [xc0; xa8; x00; x00] 16;                (* 192.168.0.0/16 *)
    cidr (repeat x00 15 ++ [x01])%list 128;          (* ::1/128 *)
    cidr ([xfe; x80] ++ repeat x00 14)%list 10;      (* fe80::/10 *)
    cidr ([xfc; x00] ++ repeat x00 14)%list 7 ].     (* fc00::/7 *)


(** *** Resolving a host *)

Fixpoint splitOn (sep : ascii) (s : string) : list string :=
  match s with
  | EmptyString => [""]
  | String c rest =>
      if Ascii.eqb c sep then "" :: splitOn sep rest
      else match splitOn sep rest with
           | f :: fs => String c f :: fs
           | [] => [String c ""]
           end
  end.

(** One field of a dotted quad: decimal, at most 255, no leading zero. *)
Definition decimalByte (f : string) : option Byte.byte :=
  match f with
  | String "0"%char (String _ _) => None
  | _ => match ParseUint f 8 with
         | inr n => Byte.of_N (Z.to_N n)
         | inl _ => None
         end
  end.

(** A dotted quad in canonical spelling, as the 16-byte address [net.IPv4]
    builds. *)
Definition parseIPv4 (host : string) : option IP :=
  match map decimalByte (splitOn "." host) with
  | [Some a; Some b; Some c; Some d] =>
      Some (repeat x00 10 ++ [xff; xff; a; b; c; d])%list
  | _ => None
  end.

(** ** Effects

    What the manager does to its collaborators is kept as a list of events,
    most recent first. *)

Inductive Callback :=
| callRemoveFromOutboundSet (addr : string)
| callRemoveFromInboundSet (addr : string).

Inductive Event :=
| evNewPeer (h : Peer)
| evStore (addr : string)
| evGet (count : Z)
| evConnect (h : Peer) (addr nonce myAddress : string)
| evOnClose (h : Peer) (cb : Callback)
| evRun (h : Peer)
| evShutdown (h : Peer).

Record State := mkState {
  manager : PeerManager;
  handles : nat;
  events : list Event
}.

(** One inbound upgrade request: the two headers ([""] when a header is
    absent), [r.RemoteAddr], and what [PeerUpgrader.Upgrade] does with it:
    [Some a] is a connection whose [RemoteAddr().String()] is [a], [None] an
    error. *)
Record Request := mkRequest {
  hdrPeerNonce : string;
  hdrPeerAddress : string;
  RemoteAddr : string;
  upgrade : option string
}.

(** The request with its address header taken away. *)
Definition withoutAddress (r : Request) : Request :=
  mkRequest (hdrPeerNonce r) "" (RemoteAddr r) (upgrade r).

(** The state after [peerStore.Store] was called with [addr]. *)
Definition stored (addr : string) (s : State) : State :=
  mkState (manager s) (handles s) (evStore addr :: events s).

Definition StatusLoopDetected : Z := 508.
Definition StatusTooManyRequests : Z := 429.

(** How the handler leaves a request. *)
Inductive Handled :=
| wroteHeader (status : Z)
| upgradeError
| shutDown (h : Peer)
| running (h : Peer).

(** The errors of [parsePeerAddress], one per [fmt.Errorf]. *)
Inductive PeerAddressError :=
| MalformedPeerAddress (addr : string)
| InvalidPort (addr : string)
| UnableToResolve (host err : string)
| NoIPAddressFound (addr : string)
| PeerAddressIsOurs (addr : string)
| IPInLocalAddressSpace (ip : string).

(** [strconv.Itoa]. *)
Definition Itoa (n : Z) : string := DecimalString.NilZero.string_of_int (Z.to_int n).

(** A small state monad over [State]. *)
Definition M (A : Type) : Type := State -> A * State.

Definition ret {A} (a : A) : M A := fun s => (a, s).

Definition bind {A B} (c : M A) (k : A -> M B) : M B :=
  fun s => let '(a, s') := c s in k a s'.

Notation "x <- c ;; k" := (bind c (fun x => k))
  (at level 100, c at next level, right associativity).
Notation "c ;;; k" := (bind c (fun _ => k))
  (at level 100, right associativity).

Definition getManager : M PeerManager := fun s => (manager s, s).

Definition getEvents : M (list Event) := fun s => (events s, s).

Definition emit (e : Event) : M unit :=
  fun s => (tt, mkState (manager s) (handles s) (e :: events s)).

(** Run a function of the manager that returns a value and a new manager. *)
Definition onManager {A} (f : PeerManager -> A * PeerManager) : M A :=
  fun s => let '(a, p') := f (manager s) in (a, mkState p' (handles s) (events s)).

Definition updManager (f : PeerManager -> PeerManager) : M unit :=
  onManager (fun p => (tt, f p)).

(** [NewPeer]: a handle that no earlier call returned. *)
Definition NewPeer : M Peer :=
  fun s => (handles s,
            mkState (manager s) (S (handles s)) (evNewPeer (handles s) :: events s)).

Fixpoint forEach {A} (l : list A) (body : A -> M unit) : M unit :=
  match l with
  | [] => ret tt
  | a :: rest => body a ;;; forEach rest body
  end.

(** [NewPeerManager]: both maps start empty, [open] is false, the nonce is
    the random number drawn, and the reserved blocks are the seven above. *)
Definition NewPeerManager (myExternalIP peer : string) (port : Z) (accept irc : bool)
    (nonce : string) : PeerManager :=
  mkPeerManager myExternalIP peer port accept irc ∅ ∅ nonce false newPrivateIPBlocks.

(** ** Connection sets *)

Section Manager.

(** The two limits are constants of the package declared outside
    [peer_manager.go]; they are parameters here. *)
Variable MAX_OUTBOUND_PEER_CONNECTIONS : Z.
Variable MAX_INBOUND_PEER_CONNECTIONS : Z.

Definition inboundPeerCount (p : PeerManager) : Z := len (inPeers p).

Definition outboundPeerCount (p : PeerManager) : Z := len (outPeers p).

Definition addToOutboundSet (addr : string) (peer : Peer) (p : PeerManager)
  : bool * PeerManager :=
  if len (outPeers p) =? MAX_OUTBOUND_PEER_CONNECTIONS then (false, p)
  else match outPeers p !! addr with
       | Some _ => (false, p)
       | None => (true, with_outPeers p (<[addr:=peer]> (outPeers p)))
       end.

Definition addToInboundSet (addr : string) (peer : Peer) (p : PeerManager)
  : bool * PeerManager :=
  if len (inPeers p) =? MAX_INBOUND_PEER_CONNECTIONS then (false, p)
  else match inPeers p !! addr with
       | Some _ => (false, p)
       | None => (true, with_inPeers p (<[addr:=peer]> (inPeers p)))
       end.

Definition existsInOutboundSet (addr : string) (p : PeerManager) : bool :=
  match outPeers p !! addr with Some _ => true | None => false end.

Definition removeFromOutboundSet (addr : string) (p : PeerManager) : PeerManager :=
  with_outPeers p (delete addr (outPeers p)).

Definition removeFromInboundSet (addr : string) (p : PeerManager) : PeerManager :=
  with_inPeers p (delete addr (inPeers p)).

(** Both sets are within their limits. *)
Definition bounded (p : PeerManager) : Prop :=
  len (outPeers p) <= MAX_OUTBOUND_PEER_CONNECTIONS
  /\ len (inPeers p) <= MAX_INBOUND_PEER_CONNECTIONS.

(** One call on the connection sets, and the run of a sequence of calls
    that keeps every state it passes through. *)
Inductive SetOp :=
| AddOutbound (addr : string) (peer : Peer)
| AddInbound (addr : string) (peer : Peer)
| RemoveOutbound (addr : string)
| RemoveInbound (addr : string).

Definition applyOp (o : SetOp) (p : PeerManager) : PeerManager :=
  match o with
  | AddOutbound a h => snd (addToOutboundSet a h p)
  | AddInbound a h => snd (addToInboundSet a h p)
  | RemoveOutbound a => removeFromOutboundSet a p
  | RemoveInbound a => removeFromInboundSet a p
  end.

Fixpoint runOps (ops : list SetOp) (p : PeerManager) : list PeerManager :=
  match ops with
  | [] => []
  | o :: rest => let p' := applyOp o p in p' :: runOps rest p'
  end.

(** *** Address validation *)

(** The system resolver behind [net.LookupIP], for the hosts that need
    one: names, IPv6 literals and non-canonical spellings. *)
Variable resolver : string -> string + list IP.

(** [net.LookupIP]: the empty host is an error, and a canonical dotted
    quad is its own and only address. *)
Definition LookupIP (host : string) : string + list IP :=
  if String.eqb host "" then inl "lookup : no such host"
  else match parseIPv4 host with
       | Some ip => inr [ip]
       | None => resolver host
       end.

Definition parsePeerAddress (addr : string) (p : PeerManager)
  : PeerAddressError + (string * string) :=
  match SplitHostPort addr with
  | inl _ => inl (MalformedPeerAddress addr)
  | inr (host, port_) =>
      match ParseUint port_ 16 with
      | inl _ => inl (InvalidPort addr)
      | inr portInt =>
          match LookupIP host with
          | inl err => inl (UnableToResolve host err)
          | inr [] => inl (NoIPAddressFound addr)
          | inr (ip0 :: _) =>
              if String.eqb (myIP p) (IP_String ip0) && (port p =? portInt)
              then inl (PeerAddressIsOurs addr)
              else if existsb (fun block => Contains block ip0) (privateIPBlocks p)
              then inl (IPInLocalAddressSpace (IP_String ip0))
              else inr (IP_String ip0, port_)
          end
      end
  end.

(** *** Outbound connections *)

(** [peer.Connect]: [None] is a nil error. *)
Variable Peer_Connect : Peer -> string -> string -> string -> option string.

(** [peerStore.Get]; what it returns may depend on everything done so
    far.  An error of [peerStore.Store] is only logged by the handler, so
    a call of it is an event and nothing more. *)
Variable peerStore_Get : list Event -> Z -> string + list string.

(** [myAddress] of [connect]: set only when the node is open. *)
Definition advertisedAddress (p : PeerManager) : string :=
  if open p then myIP p +:+ ":" +:+ Itoa (port p) else "".

Definition connect (addr : string) : M (option string) :=
  peer <- NewPeer ;;
  ok <- onManager (addToOutboundSet addr peer) ;;
  if negb ok then ret (Some "Too many peer connections")
  else
    p <- getManager ;;
    let myAddress := advertisedAddress p in
    emit (evConnect peer addr (peerNonce p) myAddress) ;;;
    match Peer_Connect peer addr (peerNonce p) myAddress with
    | Some err =>
        updManager (removeFromOutboundSet addr) ;;;
        ret (Some err)
    | None =>
        emit (evOnClose peer (callRemoveFromOutboundSet addr)) ;;;
        emit (evRun peer) ;;;
        ret None
    end.

Definition connectToPeers : M (option string) :=
  p <- getManager ;;
  if negb (String.length (peer p) =? 0)%nat then
    if negb (outboundPeerCount p =? 0) then ret None
    else connect (peer p)
  else
    let want := MAX_OUTBOUND_PEER_CONNECTIONS - outboundPeerCount p in
    if want <=? 0 then ret None
    else
      before <- getEvents ;;
      emit (evGet want) ;;;
      match peerStore_Get before want with
      | inl err => ret (Some err)
      | inr addrs =>
          forEach addrs (fun addr => connect addr ;;; ret tt) ;;;
          ret None
      end.

(** *** Inbound connections *)

(** The part of [peerHandler] that looks at the address header: [true]
    lets the request go on to the upgrade, [false] is the 429 reply. *)
Definition checkTheirAddress (theirAddress : string) : M bool :=
  if negb (String.length theirAddress =? 0)%nat then
    p <- getManager ;;
    match parsePeerAddress theirAddress p with
    | inl _ => ret true
    | inr (host, port_) =>
        let theirAddress := host +:+ ":" +:+ port_ in
        if existsInOutboundSet theirAddress p then ret false
        else emit (evStore theirAddress) ;;; ret true
    end
  else ret true.

Definition peerHandler (r : Request) : M Handled :=
  p <- getManager ;;
  if String.eqb (hdrPeerNonce r) (peerNonce p) then ret (wroteHeader StatusLoopDetected)
  else
    go <- checkTheirAddress (hdrPeerAddress r) ;;
    if negb go then ret (wroteHeader StatusTooManyRequests)
    else
      match upgrade r with
      | None => ret upgradeError
      | Some addr =>
          peer <- NewPeer ;;
          ok <- onManager (addToInboundSet (RemoteAddr r) peer) ;;
          if negb ok then emit (evShutdown peer) ;;; ret (shutDown peer)
          else
            emit (evOnClose peer (callRemoveFromInboundSet addr)) ;;;
            emit (evRun peer) ;;;
            ret (running peer)
      end.

End Manager.

(** ** Start-up, the main loop and shutdown *)

(** What a closure handed to [peer.OnClose] does when the peer calls it. *)
Definition runCallback (cb : Callback) (p : PeerManager) : PeerManager :=
  match cb with
  | callRemoveFromOutboundSet addr => removeFromOutboundSet addr p
  | callRemoveFromInboundSet addr => removeFromInboundSet addr p
  end.

(** One address of a network interface: a [*net.IPNet] or a [*net.IPAddr]
    with its [IP] field ([None] for nil), or a value of another type. *)
Inductive Addr :=
| addrIPNet (ip : option IP)
| addrIPAddr (ip : option IP)
| addrOther.

Definition addrIP (a : Addr) : option IP :=
  match a with
  | addrIPNet ip => ip
  | addrIPAddr ip => ip
  | addrOther => None
  end.

(** The inner loop of [haveLocalIPMatch], over the addresses of one
    interface. *)
Fixpoint matchAddrs (addrs : list Addr) (externalIP : string) : bool :=
  match addrs with
  | [] => false
  | a :: rest =>
      match addrIP a with
      | Some ip =>
          if String.eqb (IP_String ip) externalIP then true
          else matchAddrs rest externalIP
      | None => matchAddrs rest externalIP
      end
  end.

(** The outer loop: an interface whose [Addrs()] fails is skipped. *)
Fixpoint matchIfaces (ifaces : list (string + list Addr)) (externalIP : string) : bool :=
  match ifaces with
  | [] => false
  | inl _ :: rest => matchIfaces rest externalIP
  | inr addrs :: rest =>
      if matchAddrs addrs externalIP then true else matchIfaces rest externalIP
  end.

(** [haveLocalIPMatch]; the first argument is what [net.Interfaces()]
    returns, each interface given by what its [Addrs()] returns. *)
Definition haveLocalIPMatch (ifaces : string + list (string + list Addr))
    (externalIP : string) : bool * option string :=
  match ifaces with
  | inl err => (false, Some err)
  | inr l => (matchIfaces l externalIP, None)
  end.

(** [determineExternalIP]; the argument is what [consensus.ExternalIP()]
    returns. *)
Definition determineExternalIP (consensus : string + IP) : string + string :=
  match consensus with
  | inl err => inl err
  | inr ip => inr (IP_String ip)
  end.

(** The first block of [run]: find the external IP and decide [open]. *)
Definition detectReachability (consensus : string + IP)
    (ifaces : string + list (string + list Addr)) (p : PeerManager) : PeerManager :=
  match determineExternalIP consensus with
  | inl _ => p
  | inr myExternalIP =>
      let open' :=
        if negb (String.length (myIP p) =? 0)%nat
        then String.eqb myExternalIP (myIP p)
        else fst (haveLocalIPMatch ifaces myExternalIP) in
      mkPeerManager myExternalIP (peer p) (port p) (accept p) (irc p)
                    (inPeers p) (outPeers p) (peerNonce p) open' (privateIPBlocks p)
  end.

(** The port [run] hands to [irc.Connect]. *)
Definition ircPort (p : PeerManager) : Z :=
  if negb (open p) || negb (accept p) then 0 else port p.

(** What the select of the main loop can receive, apart from the shutdown
    signal; and what else happens to the manager while it runs: the handler
    serves a request, a peer calls its close callback. *)
Inductive LoopEvent :=
| Discovered (addr : string)
| Tick.

Inductive SystemEvent :=
| Loop (e : LoopEvent)
| Inbound (r : Request)
| Closed (cb : Callback).


Section Running.

Variable MAX_OUTBOUND_PEER_CONNECTIONS : Z.
Variable MAX_INBOUND_PEER_CONNECTIONS : Z.
Variable resolver : string -> string + list IP.
Variable Peer_Connect : Peer -> string -> string -> string -> option string.
Variable peerStore_Get : list Event -> Z -> string + list string.

(** [peerStore.Store]: [None] is a nil error. *)
Variable peerStore_Store : string -> option string.

(** The case [addr := <-p.addrChan] of the main loop. *)
Definition onDiscovered (addr : string) : M unit :=
  p <- getManager ;;
  match parsePeerAddress resolver addr p with
  | inl _ => ret tt
  | inr (host, port_) =>
      let resolvedAddr := host +:+ ":" +:+ port_ in
      emit (evStore resolvedAddr) ;;;
      match peerStore_Store resolvedAddr with
      | Some _ => ret tt
      | None =>
          connectToPeers MAX_OUTBOUND_PEER_CONNECTIONS Peer_Connect peerStore_Get ;;;
          ret tt
      end
  end.

Definition loopStep (e : LoopEvent) : M unit :=
  match e with
  | Discovered addr => onDiscovered addr
  | Tick =>
      connectToPeers MAX_OUTBOUND_PEER_CONNECTIONS Peer_Connect peerStore_Get ;;;
      ret tt
  end.

(** The main loop over the events it receives before the shutdown signal. *)
Definition mainLoop (es : list LoopEvent) : M unit := forEach es loopStep.

Definition systemStep (e : SystemEvent) : M unit :=
  match e with
  | Loop e => loopStep e
  | Inbound r => peerHandler MAX_INBOUND_PEER_CONNECTIONS resolver r ;;; ret tt
  | Closed cb => updManager (runCallback cb)
  end.

End Running.

(** *** Shutdown *)


Section ShuttingDown.

(** [peer.Shutdown] belongs to the peer protocol handler, which is not in
    this file.  What a call of it does to the manager (it may call the
    close callbacks registered with the peer) is a parameter. *)
Variable Peer_Shutdown : Peer -> PeerManager -> PeerManager.




End ShuttingDown.

(** *** Outbound connections to a resolved address *)

Section Pairing.

Variable resolver : string -> string + list IP.



End Pairing.


(** *** Invariants of the running manager *)

(** Every handle in a map was made by [NewPeer]. *)
Definition handlesBelow (s : State) : Prop :=
  forall a h,
    outPeers (manager s) !! a = Some h \/ inPeers (manager s) !! a = Some h ->
    (h < handles s)%nat.

(** No handle is held under two keys or by both maps. *)
Definition ownedOnce (p : PeerManager) : Prop :=
  (forall a b h, outPeers p !! a = Some h -> outPeers p !! b = Some h -> a = b)
  /\ (forall a b h, inPeers p !! a = Some h -> inPeers p !! b = Some h -> a = b)
  /\ (forall a b h, outPeers p !! a = Some h -> inPeers p !! b = Some h -> False).

(** The fields that are set at start-up and not written afterwards. *)
Definition sameIdentity (p q : PeerManager) : Prop :=
  myIP p = myIP q /\ peer p = peer q /\ port p = port q /\ accept p = accept q
  /\ irc p = irc q /\ peerNonce p = peerNonce q /\ open p = open q
  /\ privateIPBlocks p = privateIPBlocks q.

(** A string made of decimal digits only. *)
Definition allDigits (s : string) : Prop :=
  forall i c, String.get i s = Some c -> 48 <= byteOf c <= 57.

(** Whether one of the reserved blocks contains the address. *)
Definition inReservedBlock (blocks : list IPNet) (ip : IP) : bool :=
  existsb (fun block => Contains block ip) blocks.

(** The ways in which the manager and the handle counter change: events
    only, a handle made and dropped, a fresh handle stored in the outbound
    or in the inbound map below its limit, and a close callback. *)
Inductive Move (maxOut maxIn : Z) (s s' : State) : Prop :=
| moveEvents :
    manager s' = manager s -> handles s' = handles s -> Move maxOut maxIn s s'
| moveHandle :
    manager s' = manager s -> handles s' = S (handles s) -> Move maxOut maxIn s s'
| moveOutbound (addr : string) :
    outPeers (manager s) !! addr = None ->
    len (outPeers (manager s)) <> maxOut ->
    manager s' = with_outPeers (manager s) (<[addr:=handles s]> (outPeers (manager s))) ->
    handles s' = S (handles s) ->
    Move maxOut maxIn s s'
| moveInbound (addr : string) :
    inPeers (manager s) !! addr = None ->
    len (inPeers (manager s)) <> maxIn ->
    manager s' = with_inPeers (manager s) (<[addr:=handles s]> (inPeers (manager s))) ->
    handles s' = S (handles s) ->
    Move maxOut maxIn s s'
| moveClosed (cb : Callback) :
    manager s' = runCallback cb (manager s) -> handles s' = handles s ->
    Move maxOut maxIn s s'.

(** ** Concrete nodes and inputs *)

(** A node that knows its external address 203.0.113.5 and listens on 8333. *)
Definition exampleNode : PeerManager :=
  let p := NewPeerManager "203.0.113.5" "" 8333 true false "1804289383" in
  mkPeerManager (myIP p) (peer p) (port p) (accept p) (irc p)
                (inPeers p) (outPeers p) (peerNonce p) true (privateIPBlocks p).

(** A node that has not learnt its external address. *)
Definition anonymousNode : PeerManager :=
  NewPeerManager "" "" 8333 true false "1804289383".

Definition noResolver (host : string) : string + list IP := inl "no such host".

Definition nineInbound : list SetOp :=
  [ AddInbound "198.51.100.1:40001" 0; AddInbound "198.51.100.2:40002" 1;
    AddInbound "198.51.100.3:40003" 2; AddInbound "198.51.100.4:40004" 3;
    AddInbound "198.51.100.5:40005" 4; AddInbound "198.51.100.6:40006" 5;
    AddInbound "198.51.100.7:40007" 6; AddInbound "198.51.100.8:40008" 7;
    AddInbound "198.51.100.9:40009" 8 ]%nat.

Definition mixedOps : list SetOp :=
  [ AddOutbound "192.0.2.1:8831" 0; AddOutbound "192.0.2.2:8831" 1;
    AddOutbound "192.0.2.3:8831" 2; AddInbound "198.51.100.1:40001" 3;
    RemoveOutbound "192.0.2.1:8831"; AddInbound "198.51.100.2:40002" 4;
    AddInbound "198.51.100.3:40003" 5; RemoveInbound "198.51.100.9:40009";
    AddOutbound "192.0.2.4:8831" 6 ]%nat.

(** An outbound attempt that always fails, and a peer store with three
    saved addresses. *)
Definition refuseAll (h : Peer) (addr nonce myAddress : string) : option string :=
  Some "connection refused".

Definition savedPeers (before : list Event) (count : Z) : string + list string :=
  inr ["192.0.2.1:8831"; "192.0.2.2:8831"; "192.0.2.3:8831"].

Definition exampleState : State := mkState exampleNode 0 [].

(** The example node with one outbound connection, to 192.0.2.7:8831. *)
Definition connectedState : State :=
  mkState (snd (addToOutboundSet 8 "192.0.2.7:8831" 0%nat exampleNode)) 1
          [evRun 0%nat; evOnClose 0%nat (callRemoveFromOutboundSet "192.0.2.7:8831");
           evConnect 0%nat "192.0.2.7:8831" "1804289383" "203.0.113.5:8333";
           evNewPeer 0%nat].

Definition eightOutbound : list SetOp :=
  [ AddOutbound "192.0.2.1:8831" 0; AddOutbound "192.0.2.2:8831" 1;
    AddOutbound "192.0.2.3:8831" 2; AddOutbound "192.0.2.4:8831" 3;
    AddOutbound "192.0.2.5:8831" 4; AddOutbound "192.0.2.6:8831" 5;
    AddOutbound "192.0.2.7:8831" 6; AddOutbound "192.0.2.8:8831" 7 ]%nat.

(** The example node with its outbound set full (limit 8). *)
Definition fullState : State :=
  mkState (fold_left (fun p o => applyOp 8 128 o p) eightOutbound exampleNode) 8 [].

(** A request that carries the node's own nonce and an address header that
    the validator would accept. *)
Definition ownNonceRequest : Request :=
  mkRequest "1804289383" "192.0.2.9:8831" "192.0.2.9:51234" (Some "192.0.2.9:51234").

(** Requests from other nodes: one declares the address the node is already
    connected to, one a fresh address, one a loopback address. *)
Definition pairedRequest : Request :=
  mkRequest "424238335" "192.0.2.7:8831" "192.0.2.7:51234" (Some "192.0.2.7:51234").

Definition freshRequest : Request :=
  mkRequest "424238335" "192.0.2.9:8831" "192.0.2.9:51234" (Some "192.0.2.9:51234").


(** An outbound attempt that always succeeds, a peer store that accepts
    every address and one that fails. *)
Definition acceptAll (h : Peer) (addr nonce myAddress : string) : option string := None.

Definition storeOk (addr : string) : option string := None.

Definition brokenStore (before : list Event) (count : Z) : string + list string :=
  inl "store closed".

(** A resolver that knows one name, with a public first address and a
    private second one, and a resolver that knows the same name with the
    first address only. *)
Definition publicIP : IP := [xc6; x33; x64; x07].

Definition twoAddresses (host : string) : string + list IP :=
  if String.eqb host "seed.example.org" then inr [publicIP; [x0a; x00; x00; x01]]
  else inl "no such host".

Definition oneAddress (host : string) : string + list IP :=
  if String.eqb host "seed.example.org" then inr [publicIP]
  else inl "no such host".

(** A resolver that knows one name with an IPv6 address, 2001:db8::1. *)
Definition ipv6Address : IP :=
  [x20; x01; x0d; xb8; x00; x00; x00; x00; x00; x00; x00; x00; x00; x00; x00; x01].

Definition ipv6Resolver (host : string) : string + list IP :=
  if String.eqb host "v6.example.org" then inr [ipv6Address]
  else inl "no such host".

(** What happens to the example node: addresses are discovered, the timer
    fires, requests arrive and peers close. *)
Definition busyDay : list SystemEvent :=
  [ Loop (Discovered "192.0.2.1:8831"); Inbound freshRequest;
    Loop (Discovered "127.0.0.1:8831"); Loop Tick; Inbound pairedRequest;
    Closed (callRemoveFromOutboundSet "192.0.2.1:8831");
    Inbound ownNonceRequest; Loop (Discovered "seed.example.org:8831");
    Closed (callRemoveFromInboundSet "192.0.2.9:51234"); Loop Tick ].

(** The example node started with an explicit peer. *)
Definition explicitState : State :=
  mkState (mkPeerManager "203.0.113.5" "192.0.2.1:8831" 8333 true false ∅ ∅
                         "1804289383" true newPrivateIPBlocks) 0 [].

(** The example node with two inbound peers, full at a limit of two. *)
Definition twoInboundState : State :=
  mkState (fold_left (fun p o => applyOp 8 2 o p)
                     [AddInbound "198.51.100.1:40001" 0%nat;
                      AddInbound "198.51.100.2:40002" 1%nat] exampleNode) 2 [].





(** ** Properties of the connection sets *)

Section SetProofs.

Context (MAX_OUT MAX_IN : Z).

Lemma len_insert_fresh (m : gmap string Peer) a h :
  m !! a = None -> len (<[a:=h]> m) = len m + 1.
Proof.
  intros Hn. unfold len. rewrite map_size_insert_None by exact Hn. lia.
Qed.

Lemma len_delete_le (m : gmap string Peer) a : len (delete a m) <= len m.
Proof.
  unfold len. rewrite map_size_delete. destruct (m !! a); simpl; lia.
Qed.

Lemma addToOutboundSet_eq a h p :
  addToOutboundSet MAX_OUT a h p =
    if bool_decide (len (outPeers p) = MAX_OUT \/ is_Some (outPeers p !! a))
    then (false, p)
    else (true, with_outPeers p (<[a:=h]> (outPeers p))).
Proof.
  unfold addToOutboundSet.
  destruct (Z.eqb_spec (len (outPeers p)) MAX_OUT) as [He|Hne].
  - rewrite bool_decide_eq_true_2; [reflexivity | by left].
  - destruct (outPeers p !! a) as [h0|] eqn:Hl.
    + rewrite bool_decide_eq_true_2; [reflexivity | right; eauto].
    + rewrite bool_decide_eq_false_2; [reflexivity |].
      intros [?|[? ?]]; congruence.
Qed.

Lemma addToInboundSet_eq a h p :
  addToInboundSet MAX_IN a h p =
    if bool_decide (len (inPeers p) = MAX_IN \/ is_Some (inPeers p !! a))
    then (false, p)
    else (true, with_inPeers p (<[a:=h]> (inPeers p))).
Proof.
  unfold addToInboundSet.
  destruct (Z.eqb_spec (len (inPeers p)) MAX_IN) as [He|Hne].
  - rewrite bool_decide_eq_true_2; [reflexivity | by left].
  - destruct (inPeers p !! a) as [h0|] eqn:Hl.
    + rewrite bool_decide_eq_true_2; [reflexivity | right; eauto].
    + rewrite bool_decide_eq_false_2; [reflexivity |].
      intros [?|[? ?]]; congruence.
Qed.

Lemma applyOp_bounded o p : bounded MAX_OUT MAX_IN p -> bounded MAX_OUT MAX_IN (applyOp MAX_OUT MAX_IN o p).
Proof.
  intros [Ho Hi]. destruct o as [a h|a h|a|a]; simpl.
  - rewrite addToOutboundSet_eq. case_bool_decide as Hc; simpl; [by split|].
    split; [|exact Hi]. simpl.
    rewrite len_insert_fresh.
    + assert (len (outPeers p) <> MAX_OUT) by tauto. lia.
    + destruct (outPeers p !! a) eqn:E; [|reflexivity].
      exfalso. apply Hc. right. eauto.
  - rewrite addToInboundSet_eq. case_bool_decide as Hc; simpl; [by split|].
    split; [exact Ho|]. simpl.
    rewrite len_insert_fresh.
    + assert (len (inPeers p) <> MAX_IN) by tauto. lia.
    + destruct (inPeers p !! a) eqn:E; [|reflexivity].
      exfalso. apply Hc. right. eauto.
  - split; [|exact Hi]. simpl. pose proof (len_delete_le (outPeers p) a). lia.
  - split; [exact Ho|]. simpl. pose proof (len_delete_le (inPeers p) a). lia.
Qed.

(** C1 (amended): from a state whose sets are within their limits, every
    state that a sequence of additions and removals passes through has at
    most MAX_OUTBOUND_PEER_CONNECTIONS outbound entries and at most
    MAX_INBOUND_PEER_CONNECTIONS inbound entries. *)
Theorem sets_stay_bounded (ops : list SetOp) (p : PeerManager) :
  bounded MAX_OUT MAX_IN p -> Forall (bounded MAX_OUT MAX_IN) (runOps MAX_OUT MAX_IN ops p).
Proof.
  revert p. induction ops as [|o rest IH]; intros p Hb; simpl.
  - constructor.
  - constructor.
    + by apply applyOp_bounded.
    + apply IH. by apply applyOp_bounded.
Qed.

(** C2: an addition is refused, and the manager left as it was, exactly
    when the set is at its limit or the address is a key; otherwise the
    handle is stored under the address, the set grows by one and the call
    returns true.  A second addition of the same address is refused and
    changes nothing. *)
Theorem tryAdd_contract (addr : string) (h h' : Peer) (p : PeerManager) :
  (addToOutboundSet MAX_OUT addr h p =
     if bool_decide (len (outPeers p) = MAX_OUT \/ is_Some (outPeers p !! addr))
     then (false, p)
     else (true, with_outPeers p (<[addr:=h]> (outPeers p))))
  /\ (addToInboundSet MAX_IN addr h p =
     if bool_decide (len (inPeers p) = MAX_IN \/ is_Some (inPeers p !! addr))
     then (false, p)
     else (true, with_inPeers p (<[addr:=h]> (inPeers p))))
  /\ (fst (addToOutboundSet MAX_OUT addr h p) = true ->
      outPeers (snd (addToOutboundSet MAX_OUT addr h p)) !! addr = Some h
      /\ len (outPeers (snd (addToOutboundSet MAX_OUT addr h p))) = len (outPeers p) + 1)
  /\ (fst (addToInboundSet MAX_IN addr h p) = true ->
      inPeers (snd (addToInboundSet MAX_IN addr h p)) !! addr = Some h
      /\ len (inPeers (snd (addToInboundSet MAX_IN addr h p))) = len (inPeers p) + 1)
  /\ (let p1 := snd (addToOutboundSet MAX_OUT addr h p) in
      addToOutboundSet MAX_OUT addr h' p1 = (false, p1))
  /\ (let p1 := snd (addToInboundSet MAX_IN addr h p) in
      addToInboundSet MAX_IN addr h' p1 = (false, p1)).
Proof.
  split; [apply addToOutboundSet_eq|].
  split; [apply addToInboundSet_eq|].
  repeat split.
  - revert H. rewrite addToOutboundSet_eq. case_bool_decide; simpl; [done|].
    intros _. apply lookup_insert_eq.
  - revert H. rewrite addToOutboundSet_eq. case_bool_decide as Hc; simpl; [done|].
    intros _. apply len_insert_fresh.
    destruct (outPeers p !! addr) eqn:E; [|reflexivity].
    exfalso. apply Hc. right. eauto.
  - revert H. rewrite addToInboundSet_eq. case_bool_decide; simpl; [done|].
    intros _. apply lookup_insert_eq.
  - revert H. rewrite addToInboundSet_eq. case_bool_decide as Hc; simpl; [done|].
    intros _. apply len_insert_fresh.
    destruct (inPeers p !! addr) eqn:E; [|reflexivity].
    exfalso. apply Hc. right. eauto.
  - simpl. rewrite (addToOutboundSet_eq addr h p).
    case_bool_decide as Hc; simpl.
    + rewrite addToOutboundSet_eq. by rewrite bool_decide_eq_true_2.
    + rewrite addToOutboundSet_eq. rewrite bool_decide_eq_true_2; [reflexivity|].
      right. simpl. rewrite lookup_insert_eq. eauto.
  - simpl. rewrite (addToInboundSet_eq addr h p).
    case_bool_decide as Hc; simpl.
    + rewrite addToInboundSet_eq. by rewrite bool_decide_eq_true_2.
    + rewrite addToInboundSet_eq. rewrite bool_decide_eq_true_2; [reflexivity|].
      right. simpl. rewrite lookup_insert_eq. eauto.
Qed.

(** C9: the operations on the outbound set leave the inbound map as it
    was and do not read it, and the operations on the inbound set leave
    the outbound map as it was and do not read it. *)
Theorem sets_independent (addr : string) (h : Peer) (p : PeerManager)
    (m : gmap string Peer) :
  inPeers (snd (addToOutboundSet MAX_OUT addr h p)) = inPeers p
  /\ inPeers (removeFromOutboundSet addr p) = inPeers p
  /\ outPeers (snd (addToInboundSet MAX_IN addr h p)) = outPeers p
  /\ outPeers (removeFromInboundSet addr p) = outPeers p
  /\ addToOutboundSet MAX_OUT addr h (with_inPeers p m) =
       (fst (addToOutboundSet MAX_OUT addr h p),
        with_inPeers (snd (addToOutboundSet MAX_OUT addr h p)) m)
  /\ removeFromOutboundSet addr (with_inPeers p m) =
       with_inPeers (removeFromOutboundSet addr p) m
  /\ existsInOutboundSet addr (with_inPeers p m) = existsInOutboundSet addr p
  /\ addToInboundSet MAX_IN addr h (with_outPeers p m) =
       (fst (addToInboundSet MAX_IN addr h p),
        with_outPeers (snd (addToInboundSet MAX_IN addr h p)) m)
  /\ removeFromInboundSet addr (with_outPeers p m) =
       with_outPeers (removeFromInboundSet addr p) m.
Proof.
  unfold addToOutboundSet, addToInboundSet, removeFromOutboundSet,
    removeFromInboundSet, existsInOutboundSet; simpl.
  repeat split.
  - destruct (len (outPeers p) =? MAX_OUT); [done|].
    by destruct (outPeers p !! addr).
  - destruct (len (inPeers p) =? MAX_IN); [done|].
    by destruct (inPeers p !! addr).
  - destruct (len (outPeers p) =? MAX_OUT); [done|].
    by destruct (outPeers p !! addr).
  - destruct (len (inPeers p) =? MAX_IN); [done|].
    by destruct (inPeers p !! addr).
Qed.

End SetProofs.

Lemma NewPeerManager_bounded MAX_OUT MAX_IN ip peer port accept irc nonce :
  0 <= MAX_OUT -> 0 <= MAX_IN ->
  bounded MAX_OUT MAX_IN (NewPeerManager ip peer port accept irc nonce).
Proof.
  intros Ho Hi. unfold bounded, len. simpl. rewrite map_size_empty. lia.
Qed.

Lemma sets_stay_bounded_witness :
  bounded 8 128 anonymousNode /\ Forall (bounded 8 128) (runOps 8 128 mixedOps anonymousNode).
Proof.
  assert (Hb : bounded 8 128 anonymousNode) by (apply NewPeerManager_bounded; lia).
  split; [exact Hb | exact (sets_stay_bounded 8 128 mixedOps anonymousNode Hb)].
Defined.

(** The claim as stated bounds the inbound set by the outbound limit.  With
    limits 8 and 128, nine inbound additions of distinct addresses leave nine
    inbound entries. *)
Lemma inbound_exceeds_outbound_limit :
  ~ Forall (fun p => len (outPeers p) <= 8 /\ len (inPeers p) <= 8)
           (runOps 8 128 nineInbound anonymousNode).
Proof.
  intros H.
  assert (Hx : exists x, runOps 8 128 nineInbound anonymousNode !! 8%nat = Some x
                         /\ len (inPeers x) = 9).
  { eexists. split; [reflexivity | vm_compute; reflexivity]. }
  destruct Hx as (x & Hl & Hn).
  destruct (proj1 (Forall_lookup _ _) H 8%nat x Hl) as [_ Hin]. lia.
Qed.

(** ** Properties of the address validator *)

Lemma append_cons_nonempty (s : string) (c : ascii) (t : string) :
  s +:+ String c t <> "".
Proof. destruct s; discriminate. Qed.

Lemma hexOf_nonempty (n : N) : hexOf n <> "".
Proof.
  unfold hexOf, HexadecimalString.NilZero.string_of_uint.
  destruct (N.to_hex_uint n); discriminate.
Qed.

Lemma append_nonempty_l (s t : string) : s <> "" -> s +:+ t <> "".
Proof. destruct s; [congruence | discriminate]. Qed.

Lemma append_nonempty_r (s t : string) : t <> "" -> s +:+ t <> "".
Proof. intros H. destruct s; [exact H | discriminate]. Qed.

Lemma printGroups_nonempty fuel gs zeros : printGroups (S fuel) gs zeros 0 <> "".
Proof.
  simpl. destruct zeros as [[s e]|].
  - destruct s; [discriminate|].
    apply append_nonempty_r, append_nonempty_l, hexOf_nonempty.
  - apply append_nonempty_r, append_nonempty_l, hexOf_nonempty.
Qed.

(** [ip.String()] is never the empty string. *)
Lemma IP_String_nonempty (ip : IP) : IP_String ip <> "".
Proof.
  unfold IP_String.
  destruct (length ip =? 0)%nat; [discriminate|].
  destruct (To4 ip) as [[|a [|b [|c [|d [|x l]]]]]|];
    try (destruct (negb (length ip =? 16)%nat);
         [discriminate | apply printGroups_nonempty]).
  apply append_cons_nonempty.
Qed.

Section ValidatorProofs.

Context (resolver : string -> string + list IP).

Abbreviation parse := (parsePeerAddress resolver).

(** The validator accepts exactly when every step succeeds, and then
    returns the text of the first address and the port as split off. *)
Lemma parsePeerAddress_inr addr p ip port_ :
  parse addr p = inr (ip, port_) <->
  exists host n ip0 rest,
    SplitHostPort addr = inr (host, port_)
    /\ ParseUint port_ 16 = inr n
    /\ LookupIP resolver host = inr (ip0 :: rest)
    /\ ~ (myIP p = IP_String ip0 /\ port p = n)
    /\ existsb (fun block => Contains block ip0) (privateIPBlocks p) = false
    /\ ip = IP_String ip0.
Proof.
  unfold parsePeerAddress. split.
  - destruct (SplitHostPort addr) as [e|[host q]] eqn:Hsp; [discriminate|].
    destruct (ParseUint q 16) as [e|n] eqn:Hn; [discriminate|].
    destruct (LookupIP resolver host) as [e|[|ip0 rest]] eqn:Hl;
      try discriminate.
    destruct (String.eqb (myIP p) (IP_String ip0) && (port p =? n)) eqn:Hs;
      [discriminate|].
    destruct (existsb _ (privateIPBlocks p)) eqn:Hb; [discriminate|].
    intros [= <- <-]. exists host, n, ip0, rest.
    split; [reflexivity|]. split; [exact Hn|]. split; [exact Hl|].
    split; [|split; [exact Hb | reflexivity]].
    intros [Hi Hp]. apply andb_false_iff in Hs as [Hs|Hs].
    + apply String.eqb_neq in Hs. contradiction.
    + apply Z.eqb_neq in Hs. contradiction.
  - intros (host & n & ip0 & rest & -> & -> & -> & Hs & -> & ->).
    destruct (String.eqb_spec (myIP p) (IP_String ip0)) as [Hi|Hi]; simpl;
      [|reflexivity].
    destruct (Z.eqb_spec (port p) n) as [Hp|Hp]; [tauto | reflexivity].
Qed.

(** C3: an address that does not split is malformed; a port that is not
    an unsigned 16-bit decimal is an invalid port; an address whose first
    resolved IP lies in one of the reserved blocks is refused; a host that
    resolves to a public address, with a valid port, other than the node
    itself, is accepted and gives the text of the first resolved IP with
    the port.  The spec's examples behave so. *)
Theorem validator_classifies :
  (forall addr p e,
      SplitHostPort addr = inl e ->
      parse addr p = inl (MalformedPeerAddress addr))
  /\ (forall addr p host port_ e,
      SplitHostPort addr = inr (host, port_) ->
      ParseUint port_ 16 = inl e ->
      parse addr p = inl (InvalidPort addr))
  /\ (forall addr p host port_ n ip0 rest,
      SplitHostPort addr = inr (host, port_) ->
      ParseUint port_ 16 = inr n ->
      LookupIP resolver host = inr (ip0 :: rest) ->
      existsb (fun block => Contains block ip0) (privateIPBlocks p) = true ->
      parse addr p = inl (PeerAddressIsOurs addr)
      \/ parse addr p = inl (IPInLocalAddressSpace (IP_String ip0)))
  /\ (forall addr p host port_ n ip0 rest,
      SplitHostPort addr = inr (host, port_) ->
      ParseUint port_ 16 = inr n ->
      LookupIP resolver host = inr (ip0 :: rest) ->
      existsb (fun block => Contains block ip0) (privateIPBlocks p) = false ->
      ~ (myIP p = IP_String ip0 /\ port p = n) ->
      parse addr p = inr (IP_String ip0, port_))
  /\ parse "127.0.0.1:8080" exampleNode = inl (IPInLocalAddressSpace "127.0.0.1")
  /\ parse "10.1.2.3:8080" exampleNode = inl (IPInLocalAddressSpace "10.1.2.3")
  /\ parse "192.0.2.7:8831" exampleNode = inr ("192.0.2.7", "8831")
  /\ parse "not-an-address" exampleNode = inl (MalformedPeerAddress "not-an-address")
  /\ parse "192.0.2.7:999999" exampleNode = inl (InvalidPort "192.0.2.7:999999").
Proof.
  split; [|split; [|split; [|split]]].
  - intros addr p e He. unfold parsePeerAddress. by rewrite He.
  - intros addr p host q e Hs He. unfold parsePeerAddress. by rewrite Hs, He.
  - intros addr p host q n ip0 rest Hs Hn Hl Hb.
    unfold parsePeerAddress. rewrite Hs, Hn, Hl, Hb.
    destruct (String.eqb (myIP p) (IP_String ip0) && (port p =? n)); auto.
  - intros addr p host q n ip0 rest Hs Hn Hl Hb Hself.
    apply parsePeerAddress_inr. exists host, n, ip0, rest. auto 10.
  - repeat split; vm_compute; reflexivity.
Qed.

(** C4: the validator answers "address is ours" exactly when the address
    splits, the port parses, the host resolves, the text of the first
    resolved IP is the node's external IP and the port number is the
    node's listen port.  A node whose external IP is unknown (empty)
    never gives that answer.  For the node at 203.0.113.5 listening on
    8333, 203.0.113.5:8333 is refused as ours and 203.0.113.5:8334 is
    accepted. *)
Theorem self_guard :
  (forall addr p a,
      parse addr p = inl (PeerAddressIsOurs a) <->
      a = addr /\
      exists host port_ n ip0 rest,
        SplitHostPort addr = inr (host, port_)
        /\ ParseUint port_ 16 = inr n
        /\ LookupIP resolver host = inr (ip0 :: rest)
        /\ myIP p = IP_String ip0 /\ port p = n)
  /\ (forall addr p a, myIP p = "" -> parse addr p <> inl (PeerAddressIsOurs a))
  /\ parse "203.0.113.5:8333" exampleNode = inl (PeerAddressIsOurs "203.0.113.5:8333")
  /\ parse "203.0.113.5:8334" exampleNode = inr ("203.0.113.5", "8334").
Proof.
  assert (Hiff : forall addr p a,
      parse addr p = inl (PeerAddressIsOurs a) <->
      a = addr /\
      exists host port_ n ip0 rest,
        SplitHostPort addr = inr (host, port_)
        /\ ParseUint port_ 16 = inr n
        /\ LookupIP resolver host = inr (ip0 :: rest)
        /\ myIP p = IP_String ip0 /\ port p = n).
  { intros addr p a. unfold parsePeerAddress. split.
    - destruct (SplitHostPort addr) as [e|[host q]] eqn:Hsp; [discriminate|].
      destruct (ParseUint q 16) as [e|n] eqn:Hn; [discriminate|].
      destruct (LookupIP resolver host) as [e|[|ip0 rest]] eqn:Hl;
        try discriminate.
      destruct (String.eqb_spec (myIP p) (IP_String ip0)) as [Hi|Hi]; simpl.
      + destruct (Z.eqb_spec (port p) n) as [Hp|Hp].
        * intros [= <-]. split; [reflexivity|].
          exists host, q, n, ip0, rest. auto.
        * destruct (existsb _ (privateIPBlocks p)); discriminate.
      + destruct (existsb _ (privateIPBlocks p)); discriminate.
    - intros (-> & host & q & n & ip0 & rest & -> & -> & -> & Hi & Hp).
      rewrite Hi, String.eqb_refl. simpl.
      apply Z.eqb_eq in Hp. by rewrite Hp. }
  split; [exact Hiff|]. split; [|split; vm_compute; reflexivity].
  intros addr p a Hempty Hp. apply Hiff in Hp.
  destruct Hp as (_ & host & q & n & ip0 & rest & _ & _ & _ & Hi & _).
  rewrite Hempty in Hi. symmetry in Hi. by apply IP_String_nonempty in Hi.
Qed.

End ValidatorProofs.

(** *** The port is the text after the last colon *)

Lemma substring_whole (s : string) : substring 0 (String.length s) s = s.
Proof. induction s as [|a s IH]; simpl; [reflexivity | by rewrite IH]. Qed.

Lemma sliceFrom_cons (a : ascii) (s : string) (i : nat) :
  sliceFrom (String a s) (S i) = sliceFrom s i.
Proof. reflexivity. Qed.

Lemma sliceFrom_0 (s : string) : sliceFrom s 0 = s.
Proof. unfold sliceFrom. rewrite Nat.sub_0_r. apply substring_whole. Qed.

(** The string is the text before index [i], the byte found there, and the
    text from [i + 1] on. *)
Lemma LastIndexByteString_cut (s : string) (c : ascii) (i : nat) :
  LastIndexByteString s c = Some i ->
  s = substring 0 i s +:+ String c (sliceFrom s (i + 1)).
Proof.
  revert i. induction s as [|a s IH]; intros i; simpl; [discriminate|].
  destruct (LastIndexByteString s c) as [j|] eqn:Hj.
  - intros [= <-].
    change (String a s = String a (substring 0 j s +:+ String c (sliceFrom s (j + 1)))).
    f_equal. by apply IH.
  - destruct (Ascii.eqb_spec a c) as [->|]; [|discriminate].
    intros [= <-].
    change (String c s = String c (sliceFrom s 0)).
    by rewrite sliceFrom_0.
Qed.

Lemma SplitHostPort_port (addr host port_ : string) :
  SplitHostPort addr = inr (host, port_) ->
  exists i, LastIndexByteString addr ":" = Some i
            /\ port_ = sliceFrom addr (i + 1)
            /\ addr = substring 0 i addr +:+ ":" +:+ port_.
Proof.
  unfold SplitHostPort.
  destruct (LastIndexByteString addr ":") as [i|] eqn:Hi; [|discriminate].
  destruct (splitHost addr i) as [e|[[h j] k]]; [discriminate|].
  destruct (IndexByteString (sliceFrom addr j) "["); [discriminate|].
  destruct (IndexByteString (sliceFrom addr k) "]"); [discriminate|].
  intros [= _ <-]. exists i. split; [reflexivity|]. split; [reflexivity|].
  by apply LastIndexByteString_cut.
Qed.

Section PortProofs.

Context (resolver : string -> string + list IP).

(** C10: the port the validator returns is the text of the input after
    its last colon, unchanged, while the host it returns is the text of
    the first IP that the host of the input resolves to.  "8333" and
    "08333" are the same port number, the validator accepts both spellings
    and returns each as written, for a host given as an IP and for a host
    given by name, so the two canonical strings differ and both can be keys
    of the outbound set at once. *)
Theorem port_is_verbatim :
  (forall addr p ip port_,
      parsePeerAddress resolver addr p = inr (ip, port_) ->
      exists i, LastIndexByteString addr ":" = Some i
                /\ port_ = sliceFrom addr (i + 1)
                /\ addr = substring 0 i addr +:+ ":" +:+ port_)
  /\ (forall addr p ip port_,
      parsePeerAddress resolver addr p = inr (ip, port_) ->
      exists host ip0 rest,
        SplitHostPort addr = inr (host, port_)
        /\ LookupIP resolver host = inr (ip0 :: rest)
        /\ ip = IP_String ip0)
  /\ parsePeerAddress twoAddresses "seed.example.org:8333" anonymousNode
     = inr ("198.51.100.7", "8333")
  /\ parsePeerAddress twoAddresses "seed.example.org:08333" anonymousNode
     = inr ("198.51.100.7", "08333")
  /\ ParseUint "8333" 16 = inr 8333
  /\ ParseUint "08333" 16 = inr 8333
  /\ parsePeerAddress resolver "192.0.2.7:8333" anonymousNode = inr ("192.0.2.7", "8333")
  /\ parsePeerAddress resolver "192.0.2.7:08333" anonymousNode = inr ("192.0.2.7", "08333")
  /\ "192.0.2.7" +:+ ":" +:+ "8333" <> "192.0.2.7" +:+ ":" +:+ "08333"
  /\ (let '(ok1, p1) := addToOutboundSet 8 ("192.0.2.7" +:+ ":" +:+ "8333") 0%nat anonymousNode in
      let '(ok2, p2) := addToOutboundSet 8 ("192.0.2.7" +:+ ":" +:+ "08333") 1%nat p1 in
      ok1 = true /\ ok2 = true /\ len (outPeers p2) = 2).
Proof.
  split.
  - intros addr p ip q H. apply parsePeerAddress_inr in H.
    destruct H as (host & n & ip0 & rest & Hs & _).
    exact (SplitHostPort_port _ _ _ Hs).
  - split.
    { intros addr p ip q H. apply parsePeerAddress_inr in H.
      destruct H as (host & n & ip0 & rest & Hs & _ & Hl & _ & _ & Hip).
      exists host, ip0, rest. auto. }
    split; [vm_compute; reflexivity|].
    split; [vm_compute; reflexivity|].
    split; [vm_compute; reflexivity|].
    split; [vm_compute; reflexivity|].
    split; [vm_compute; reflexivity|].
    split; [vm_compute; reflexivity|].
    split; [discriminate|].
    vm_compute. repeat split.
Qed.

End PortProofs.

(** ** Properties of connecting and accepting *)

Lemma remove_after_add (addr : string) (h : Peer) (p : PeerManager) :
  outPeers p !! addr = None ->
  removeFromOutboundSet addr (with_outPeers p (<[addr:=h]> (outPeers p))) = p.
Proof.
  intros Hn. destruct p as [ip pr po ac ir inp outp no op bl].
  unfold removeFromOutboundSet, with_outPeers. simpl in *.
  by rewrite delete_insert_id.
Qed.


Section ManagerProofs.

Context (MAX_OUT MAX_IN : Z).
Context (resolver : string -> string + list IP).
Context (Peer_Connect : Peer -> string -> string -> string -> option string).
Context (peerStore_Get : list Event -> Z -> string + list string).

(** C5: when the new handle is admitted and the connection then fails,
    [connect] returns that error and the manager, and with it the
    outbound set, is as before the call; when the handle is not admitted,
    [connect] returns an error, the manager is as before and no
    connection was attempted. *)
Theorem connect_failure (addr : string) (s : State) :
  let h := handles s in
  let p := manager s in
  (forall err,
      fst (addToOutboundSet MAX_OUT addr h p) = true ->
      Peer_Connect h addr (peerNonce p) (advertisedAddress p) = Some err ->
      fst (connect MAX_OUT Peer_Connect addr s) = Some err
      /\ manager (snd (connect MAX_OUT Peer_Connect addr s)) = p)
  /\ (fst (addToOutboundSet MAX_OUT addr h p) = false ->
      fst (connect MAX_OUT Peer_Connect addr s) = Some "Too many peer connections"
      /\ manager (snd (connect MAX_OUT Peer_Connect addr s)) = p
      /\ events (snd (connect MAX_OUT Peer_Connect addr s)) = evNewPeer h :: events s).
Proof.
  intros h p. subst h p.
  unfold connect, bind, NewPeer, onManager, updManager, onManager, getManager,
    emit, ret, advertisedAddress. simpl.
  rewrite addToOutboundSet_eq.
  case_bool_decide as Hc; simpl.
  - split; [intros err Hf; discriminate | auto].
  - split; [|discriminate].
    intros err _ Hconn. rewrite Hconn. simpl. split; [reflexivity|].
    apply remove_after_add.
    destruct (outPeers (manager s) !! addr) eqn:E; [|reflexivity].
    exfalso. apply Hc. right. eauto.
Qed.

(** C6: a request whose nonce header is the node's own nonce gets the
    loop-detected status whatever else it carries, and the state is as
    before: no handle was made and neither set changed. *)
Theorem own_nonce_rejected (r : Request) (s : State) :
  hdrPeerNonce r = peerNonce (manager s) ->
  peerHandler MAX_IN resolver r s = (wroteHeader StatusLoopDetected, s).
Proof.
  intros Hn. unfold peerHandler, bind, getManager. simpl.
  by rewrite Hn, String.eqb_refl.
Qed.

(** C8: with no explicit peer and the outbound set at its limit,
    [connectToPeers] returns nil and the state is as before, so nothing
    was fetched from the store, no connection was attempted and no set
    changed; the same holds for any number of calls in a row. *)
Theorem connectToPeers_noop_when_full (s : State) :
  peer (manager s) = "" ->
  len (outPeers (manager s)) = MAX_OUT ->
  connectToPeers MAX_OUT Peer_Connect peerStore_Get s = (None, s)
  /\ forall n,
      Nat.iter n (fun s => snd (connectToPeers MAX_OUT Peer_Connect peerStore_Get s)) s = s.
Proof.
  intros Hp Hfull.
  assert (H1 : connectToPeers MAX_OUT Peer_Connect peerStore_Get s = (None, s)).
  { unfold connectToPeers, bind, getManager, outboundPeerCount. simpl.
    rewrite Hp, Hfull. simpl. rewrite Z.sub_diag. reflexivity. }
  split; [exact H1|].
  induction n as [|n IH]; simpl; [reflexivity|]. by rewrite IH, H1.
Qed.

End ManagerProofs.

Section AcceptProofs.

Context (MAX_IN : Z).
Context (resolver : string -> string + list IP).

(** What the handler does from the upgrade on. *)
Lemma peerHandler_no_address (r : Request) (s : State) :
  hdrPeerNonce r <> peerNonce (manager s) ->
  peerHandler MAX_IN resolver (withoutAddress r) s =
    match upgrade r with
    | None => (upgradeError, s)
    | Some a =>
        let h := handles s in
        let '(ok, p') := addToInboundSet MAX_IN (RemoteAddr r) h (manager s) in
        if ok
        then (running h,
              mkState p' (S h)
                (evRun h :: evOnClose h (callRemoveFromInboundSet a)
                   :: evNewPeer h :: events s))
        else (shutDown h,
              mkState p' (S h) (evShutdown h :: evNewPeer h :: events s))
    end.
Proof.
  intros Hn. apply String.eqb_neq in Hn.
  unfold peerHandler, checkTheirAddress, bind, getManager, ret, NewPeer,
    onManager, emit. simpl. rewrite Hn.
  destruct (upgrade r) as [a|]; [|reflexivity]. simpl.
  destruct (addToInboundSet MAX_IN (RemoteAddr r) (handles s) (manager s))
    as [[|] p']; reflexivity.
Qed.




End AcceptProofs.

(** ** The theorems at concrete nodes *)

Lemma connect_failure_witness :
  (fst (connect 8 refuseAll "192.0.2.1:8831" exampleState) = Some "connection refused"
   /\ manager (snd (connect 8 refuseAll "192.0.2.1:8831" exampleState)) = exampleNode)
  /\ (fst (connect 8 refuseAll "192.0.2.7:8831" connectedState)
        = Some "Too many peer connections"
      /\ manager (snd (connect 8 refuseAll "192.0.2.7:8831" connectedState))
           = manager connectedState
      /\ events (snd (connect 8 refuseAll "192.0.2.7:8831" connectedState))
           = evNewPeer 1%nat :: events connectedState).
Proof.
  split.
  - apply (proj1 (connect_failure 8 refuseAll "192.0.2.1:8831" exampleState)
                 "connection refused"); vm_compute; reflexivity.
  - apply (proj2 (connect_failure 8 refuseAll "192.0.2.7:8831" connectedState)).
    vm_compute; reflexivity.
Defined.

Lemma own_nonce_rejected_witness :
  hdrPeerNonce ownNonceRequest = peerNonce (manager exampleState)
  /\ peerHandler 128 noResolver ownNonceRequest exampleState
     = (wroteHeader StatusLoopDetected, exampleState).
Proof.
  split; [reflexivity|].
  apply (own_nonce_rejected 128 noResolver ownNonceRequest exampleState).
  reflexivity.
Defined.



Lemma connectToPeers_noop_when_full_witness :
  len (outPeers (manager fullState)) = 8
  /\ connectToPeers 8 refuseAll savedPeers fullState = (None, fullState)
  /\ forall n,
      Nat.iter n (fun s => snd (connectToPeers 8 refuseAll savedPeers s)) fullState
      = fullState.
Proof.
  assert (Hfull : len (outPeers (manager fullState)) = 8) by (vm_compute; reflexivity).
  split; [exact Hfull|].
  exact (connectToPeers_noop_when_full 8 refuseAll savedPeers fullState eq_refl Hfull).
Defined.

(** ** Further properties of the connection sets *)

Lemma with_outPeers_id (p : PeerManager) : with_outPeers p (outPeers p) = p.
Proof. by destruct p. Qed.

Lemma with_inPeers_id (p : PeerManager) : with_inPeers p (inPeers p) = p.
Proof. by destruct p. Qed.

Lemma remove_after_add_in (addr : string) (h : Peer) (p : PeerManager) :
  inPeers p !! addr = None ->
  removeFromInboundSet addr (with_inPeers p (<[addr:=h]> (inPeers p))) = p.
Proof.
  intros Hn. destruct p as [ip pr po ac ir inp outp no op bl].
  unfold removeFromInboundSet, with_inPeers. simpl in *.
  by rewrite delete_insert_id.
Qed.

(** X1: removing an address leaves it absent and every other key as it
    was; removing it again, or removing an address that is not a key,
    changes nothing; the count drops by one exactly when the address was a
    key. *)
Theorem remove_is_delete_if_present (addr other : string) (p : PeerManager) :
  existsInOutboundSet addr (removeFromOutboundSet addr p) = false
  /\ inPeers (removeFromInboundSet addr p) !! addr = None
  /\ removeFromOutboundSet addr (removeFromOutboundSet addr p) = removeFromOutboundSet addr p
  /\ removeFromInboundSet addr (removeFromInboundSet addr p) = removeFromInboundSet addr p
  /\ (outPeers p !! addr = None -> removeFromOutboundSet addr p = p)
  /\ (inPeers p !! addr = None -> removeFromInboundSet addr p = p)
  /\ (other <> addr ->
      outPeers (removeFromOutboundSet addr p) !! other = outPeers p !! other
      /\ inPeers (removeFromInboundSet addr p) !! other = inPeers p !! other)
  /\ len (outPeers (removeFromOutboundSet addr p))
     = len (outPeers p) - (if existsInOutboundSet addr p then 1 else 0)
  /\ len (inPeers (removeFromInboundSet addr p))
     = len (inPeers p) - (match inPeers p !! addr with Some _ => 1 | None => 0 end).
Proof.
  unfold existsInOutboundSet, removeFromOutboundSet, removeFromInboundSet; simpl.
  split; [by rewrite lookup_delete_eq|].
  split; [by rewrite lookup_delete_eq|].
  split; [by rewrite delete_delete_eq|].
  split; [by rewrite delete_delete_eq|].
  split; [intros Hn; rewrite delete_id by exact Hn; apply with_outPeers_id|].
  split; [intros Hn; rewrite delete_id by exact Hn; apply with_inPeers_id|].
  split; [intros Hne; by rewrite !lookup_delete_ne|].
  unfold len. rewrite !map_size_delete. split.
  - destruct (outPeers p !! addr) eqn:E; simpl; [|lia].
    assert (size (outPeers p) <> 0%nat); [|lia].
    apply map_size_non_empty_iff. intros Hm. rewrite Hm in E. by rewrite lookup_empty in E.
  - destruct (inPeers p !! addr) eqn:E; simpl; [|lia].
    assert (size (inPeers p) <> 0%nat); [|lia].
    apply map_size_non_empty_iff. intros Hm. rewrite Hm in E. by rewrite lookup_empty in E.
Qed.

Section MoreSetProofs.

Context (MAX_OUT MAX_IN : Z).

(** X2: an addition that succeeds was of an address not yet a key; after
    it the address is found with the handle given, every other key is as it
    was, and removing the address gives back the manager as it was before
    the addition. *)
Theorem add_then_remove (addr other : string) (h : Peer) (p : PeerManager) :
  (fst (addToOutboundSet MAX_OUT addr h p) = true ->
   let p1 := snd (addToOutboundSet MAX_OUT addr h p) in
   existsInOutboundSet addr p = false
   /\ existsInOutboundSet addr p1 = true
   /\ outPeers p1 !! addr = Some h
   /\ (other <> addr -> outPeers p1 !! other = outPeers p !! other)
   /\ removeFromOutboundSet addr p1 = p)
  /\ (fst (addToInboundSet MAX_IN addr h p) = true ->
      let p1 := snd (addToInboundSet MAX_IN addr h p) in
      inPeers p !! addr = None
      /\ inPeers p1 !! addr = Some h
      /\ (other <> addr -> inPeers p1 !! other = inPeers p !! other)
      /\ removeFromInboundSet addr p1 = p).
Proof.
  split.
  - unfold addToOutboundSet, existsInOutboundSet.
    destruct (len (outPeers p) =? MAX_OUT); [discriminate|].
    destruct (outPeers p !! addr) eqn:E; [discriminate|].
    intros _. simpl. rewrite lookup_insert_eq.
    split; [reflexivity|]. split; [reflexivity|]. split; [reflexivity|].
    split; [intros Hne; by rewrite lookup_insert_ne|].
    by apply remove_after_add.
  - unfold addToInboundSet.
    destruct (len (inPeers p) =? MAX_IN); [discriminate|].
    destruct (inPeers p !! addr) eqn:E; [discriminate|].
    intros _. simpl. rewrite lookup_insert_eq.
    split; [reflexivity|]. split; [reflexivity|].
    split; [intros Hne; by rewrite lookup_insert_ne|].
    by apply remove_after_add_in.
Qed.

End MoreSetProofs.

(** ** Further properties of the address validator *)

Lemma allDigits_cons (c : ascii) (s : string) :
  48 <= byteOf c <= 57 -> allDigits s -> allDigits (String c s).
Proof.
  intros Hc Hs [|i] d; simpl.
  - by intros [= <-].
  - apply Hs.
Qed.

(** A run of the loop that succeeds read decimal digits only and ends
    within the maximum. *)
Lemma parseUintLoop_inr (s : string) (cutoff maxVal n m : Z) :
  0 <= n <= maxVal ->
  parseUintLoop s cutoff maxVal n = inr m ->
  0 <= m <= maxVal /\ allDigits s.
Proof.
  revert n. induction s as [|c s IH]; intros n Hn; simpl.
  - intros [= <-]. split; [exact Hn|]. intros i d. destruct i; discriminate.
  - destruct ((48 <=? byteOf c) && (byteOf c <=? 57)) eqn:Hd.
    + apply andb_true_iff in Hd as [H1 H2].
      apply Z.leb_le in H1. apply Z.leb_le in H2.
      destruct (10 <=? byteOf c - 48); [discriminate|].
      destruct (cutoff <=? n); [discriminate|].
      destruct ((((n * 10) mod 2 ^ 64 + (byteOf c - 48)) mod 2 ^ 64
                 <? (n * 10) mod 2 ^ 64)
                || (maxVal <? ((n * 10) mod 2 ^ 64 + (byteOf c - 48)) mod 2 ^ 64))
        eqn:Hr; [discriminate|].
      apply orb_false_iff in Hr as [_ Hmax]. apply Z.ltb_ge in Hmax.
      intros Hloop. apply IH in Hloop.
      * destruct Hloop as [Hm Hs]. split; [exact Hm|].
        apply allDigits_cons; [lia | exact Hs].
      * split; [|exact Hmax]. apply Z.mod_pos_bound. lia.
    + destruct ((97 <=? lower (byteOf c)) && (lower (byteOf c) <=? 122)) eqn:Hl;
        [|discriminate].
      apply andb_true_iff in Hl as [H1 _]. apply Z.leb_le in H1.
      unfold lower in *.
      destruct (Z.leb_spec 10 (Z.lor (byteOf c) 32 - 97 + 10));
        [discriminate | exfalso; lia].
Qed.

Lemma ParseUint_inr (s : string) (n : Z) :
  ParseUint s 16 = inr n -> s <> "" /\ allDigits s /\ 0 <= n <= 65535.
Proof.
  unfold ParseUint. destruct (String.eqb_spec s "") as [->|Hne]; [discriminate|].
  intros H. apply parseUintLoop_inr in H; [|lia].
  destruct H as [Hn Hs]. split; [exact Hne|]. split; [exact Hs|].
  change (2 ^ 16 - 1) with 65535 in Hn. exact Hn.
Qed.

Section MoreValidatorProofs.

Context (resolver : string -> string + list IP).

(** X3: an address the validator accepts is never the node's own address
    and never inside one of the node's reserved blocks; the host returned is
    the non-empty text of the first resolved IP, and the port returned is a
    non-empty string of decimal digits whose value is at most 65535. *)
Theorem accepted_address_invariants (addr : string) (p : PeerManager)
    (ip port_ : string) :
  parsePeerAddress resolver addr p = inr (ip, port_) ->
  ip <> ""
  /\ port_ <> ""
  /\ allDigits port_
  /\ (exists n, ParseUint port_ 16 = inr n /\ 0 <= n <= 65535
                /\ ~ (myIP p = ip /\ port p = n))
  /\ (exists host ip0 rest,
        LookupIP resolver host = inr (ip0 :: rest)
        /\ ip = IP_String ip0
        /\ inReservedBlock (privateIPBlocks p) ip0 = false).
Proof.
  intros H. apply parsePeerAddress_inr in H.
  destruct H as (host & n & ip0 & rest & Hs & Hn & Hl & Hself & Hb & ->).
  destruct (ParseUint_inr _ _ Hn) as (Hne & Hd & Hr).
  split; [apply IP_String_nonempty|].
  split; [exact Hne|]. split; [exact Hd|].
  split; [exists n; auto|].
  exists host, ip0, rest. auto.
Qed.

(** X4: the validator reads only the node's external IP, its listen port
    and its reserved blocks, and of the resolved addresses only the first:
    two managers that agree on these three fields, with two resolvers whose
    answers for every host agree on failure and on the first address, get
    the same result. *)
Theorem validator_reads_only (r1 r2 : string -> string + list IP)
    (addr : string) (p q : PeerManager) :
  myIP p = myIP q -> port p = port q -> privateIPBlocks p = privateIPBlocks q ->
  (forall host,
      match r1 host, r2 host with
      | inl e1, inl e2 => e1 = e2
      | inr l1, inr l2 => head l1 = head l2
      | _, _ => False
      end) ->
  parsePeerAddress r1 addr p = parsePeerAddress r2 addr q.
Proof.
  intros Hi Hp Hb Hr. unfold parsePeerAddress, LookupIP.
  destruct (SplitHostPort addr) as [e|[host q0]]; [reflexivity|].
  destruct (ParseUint q0 16) as [e|n]; [reflexivity|].
  destruct (String.eqb host ""); [reflexivity|].
  destruct (parseIPv4 host) as [ip|].
  - by rewrite Hi, Hp, Hb.
  - specialize (Hr host).
    destruct (r1 host) as [e1|[|a l1]], (r2 host) as [e2|[|b l2]];
      simpl in Hr; try contradiction; try discriminate.
    + by rewrite Hr.
    + reflexivity.
    + injection Hr as ->. by rewrite Hi, Hp, Hb.
Qed.

End MoreValidatorProofs.

(** *** The reserved blocks of a new manager *)

Lemma band_0_r (a : Byte.byte) : band a x00 = 0%N.
Proof. unfold band. simpl. apply N.land_0_r. Qed.

Lemma band_ff_r (a : Byte.byte) : band a xff = Byte.to_N a.
Proof. destruct a; reflexivity. Qed.

Lemma band_f0_16 (b : Byte.byte) :
  (band x10 xf0 =? band b xf0)%N = ((16 <=? Byte.to_N b) && (Byte.to_N b <=? 31))%N.
Proof. destruct b; reflexivity. Qed.

Lemma band_c0_80 (b : Byte.byte) :
  (band x80 xc0 =? band b xc0)%N = ((128 <=? Byte.to_N b) && (Byte.to_N b <=? 191))%N.
Proof. destruct b; reflexivity. Qed.

Lemma band_fe_fc (b : Byte.byte) :
  (band xfc xfe =? band b xfe)%N = ((252 <=? Byte.to_N b) && (Byte.to_N b <=? 253))%N.
Proof. destruct b; reflexivity. Qed.

Lemma newPrivateIPBlocks_eq :
  newPrivateIPBlocks =
  [ mkIPNet [x7f; x00; x00; x00] [xff; x00; x00; x00];
    mkIPNet [x0a; x00; x00; x00] [xff; x00; x00; x00];
    mkIPNet [xac; x10; x00; x00] [xff; xf0; x00; x00];
    mkIPNet [xc0; xa8; x00; x00] [xff; xff; x00; x00];
    mkIPNet (repeat x00 15 ++ [x01])%list (repeat xff 16);
    mkIPNet ([xfe; x80] ++ repeat x00 14)%list ([xff; xc0] ++ repeat x00 14)%list;
    mkIPNet ([xfc; x00] ++ repeat x00 14)%list ([xfe] ++ repeat x00 15)%list ].
Proof. vm_compute. reflexivity. Qed.

Lemma To4_length (ip x : IP) : To4 ip = Some x -> length x = 4%nat.
Proof.
  unfold To4. destruct (Nat.eqb_spec (length ip) 4) as [H4|_].
  - by intros [= <-].
  - destruct (Nat.eqb_spec (length ip) 16) as [H16|_]; [|discriminate]. simpl.
    destruct (isZeros (take 10 ip) && _); [|discriminate].
    intros [= <-]. rewrite length_take, length_drop. lia.
Qed.

(** [Contains] looks at an address through [To4] only. *)
Lemma Contains_To4 (n : IPNet) (ip x : IP) :
  To4 ip = Some x -> Contains n ip = Contains n x.
Proof.
  intros H. pose proof (To4_length _ _ H) as Hx.
  unfold Contains. rewrite H.
  assert (Hxx : To4 x = Some x) by (unfold To4; by rewrite Hx).
  by rewrite Hxx.
Qed.

Lemma inReservedBlock_To4 (blocks : list IPNet) (ip x : IP) :
  To4 ip = Some x -> inReservedBlock blocks ip = inReservedBlock blocks x.
Proof.
  intros H. unfold inReservedBlock. induction blocks as [|n l IH]; simpl; [reflexivity|].
  by rewrite IH, (Contains_To4 n ip x H).
Qed.

(** X5: for a new manager, an IPv4 address a.b.c.d (as four bytes or as
    the sixteen-byte form) is inside a reserved block exactly when it is in
    127.0.0.0/8, 10.0.0.0/8, 172.16.0.0/12 or 192.168.0.0/16; the last two
    bytes never matter.  Other IPv4 ranges are not filtered. *)
Theorem reserved_ipv4_ranges (ip : IP) (a b c d : Byte.byte)
    (myExternalIP peer_ : string) (port_ : Z) (accept_ irc_ : bool) (nonce : string) :
  To4 ip = Some [a; b; c; d] ->
  inReservedBlock
    (privateIPBlocks (NewPeerManager myExternalIP peer_ port_ accept_ irc_ nonce)) ip = true
  <-> (Byte.to_N a = 127 \/ Byte.to_N a = 10
       \/ (Byte.to_N a = 172 /\ 16 <= Byte.to_N b <= 31)
       \/ (Byte.to_N a = 192 /\ Byte.to_N b = 168))%N.
Proof.
  intros H4. rewrite (inReservedBlock_To4 _ _ _ H4).
  unfold inReservedBlock. simpl privateIPBlocks. rewrite newPrivateIPBlocks_eq.
  cbn -[band N.eqb].
  rewrite !band_0_r, !band_ff_r, band_f0_16. cbn -[N.eqb N.leb].
  rewrite !andb_true_r, !orb_false_r, !orb_true_iff, !andb_true_iff,
    !N.eqb_eq, !N.leb_le.
  intuition lia.
Qed.

Lemma to_N_inj (a b : Byte.byte) : Byte.to_N a = Byte.to_N b -> a = b.
Proof.
  intros H. pose proof (Byte.of_to_N a) as Ha. rewrite H, Byte.of_to_N in Ha.
  by injection Ha.
Qed.

Lemma band_ff_eqb (a b : Byte.byte) : (band a xff =? band b xff)%N = Byte.eqb a b.
Proof.
  rewrite !band_ff_r. destruct (Byte.eqb a b) eqn:E.
  - apply Byte.byte_dec_bl in E as ->. apply N.eqb_refl.
  - apply N.eqb_neq. intros H. apply to_N_inj in H. apply Byte.eqb_false in E. contradiction.
Qed.

Lemma Contains_no_To4 (n : IPNet) (ip : IP) :
  To4 ip = None ->
  Contains n ip =
    (let '(nn, m) := networkNumberAndMask n in
     if negb (length ip =? length nn)%nat then false else sameMasked nn m ip).
Proof. intros H. unfold Contains. by rewrite H. Qed.

(** X6: for a new manager, a sixteen-byte address that is not an IPv4
    address in IPv6 form is inside a reserved block exactly when it is ::1,
    or in fe80::/10, or in fc00::/7. *)
Theorem reserved_ipv6_ranges (ip : IP)
    (myExternalIP peer_ : string) (port_ : Z) (accept_ irc_ : bool) (nonce : string) :
  length ip = 16%nat ->
  To4 ip = None ->
  inReservedBlock
    (privateIPBlocks (NewPeerManager myExternalIP peer_ port_ accept_ irc_ nonce)) ip = true
  <-> ip = (repeat x00 15 ++ [x01])%list
      \/ exists b0 b1 rest,
           ip = b0 :: b1 :: rest
           /\ ((b0 = xfe /\ 128 <= Byte.to_N b1 <= 191) \/ 252 <= Byte.to_N b0 <= 253)%N.
Proof.
  intros Hlen HNone.
  unfold inReservedBlock. simpl privateIPBlocks. rewrite newPrivateIPBlocks_eq.
  unfold existsb. rewrite !(Contains_no_To4 _ _ HNone). clear HNone.
  do 17 (destruct ip as [|? ip]; try discriminate). clear Hlen.
  cbn -[band N.eqb].
  rewrite !band_0_r, band_c0_80, band_fe_fc, !band_ff_eqb. cbn -[N.eqb N.leb Byte.eqb].
  change ((0 =? 0)%N) with true.
  rewrite ?andb_true_r, ?orb_false_r.
  rewrite !orb_true_iff, !andb_true_iff, !N.leb_le.
  split.
  - intros [H|[H|H]].
    + left.
      repeat match goal with H : _ /\ _ |- _ => destruct H end.
      repeat match goal with
             | H : Byte.eqb _ _ = true |- _ => apply Byte.byte_dec_bl in H; subst
             end.
      reflexivity.
    + right. destruct H as [H1 H2]. apply Byte.byte_dec_bl in H1. subst.
      eexists _, _, _. split; [reflexivity|]. left. split; [reflexivity | lia].
    + right. eexists _, _, _. split; [reflexivity|]. right. lia.
  - intros [H|(c0 & c1 & rest & Heq & HP)].
    + injection H as -> -> -> -> -> -> -> -> -> -> -> -> -> -> -> ->.
      left. repeat split.
    + injection Heq as <- <- _.
      destruct HP as [[-> Hr]|Hr]; right; [left | right].
      * split; [reflexivity | lia].
      * lia.
Qed.

(** *** Validating a canonical address again *)

Lemma IndexByteString_app (s t : string) (c : ascii) :
  IndexByteString s c = None -> IndexByteString t c = None ->
  IndexByteString (s +:+ t) c = None.
Proof.
  intros Hs Ht. induction s as [|a s IH]; simpl in *; [exact Ht|].
  destruct (Ascii.eqb a c); [discriminate|].
  destruct (IndexByteString s c); [discriminate|]. by rewrite IH.
Qed.

Lemma IndexByteString_app_found (s t : string) (c : ascii) :
  IndexByteString (s +:+ String c t) c <> None.
Proof.
  induction s as [|a s IH]; simpl.
  - by rewrite Ascii.eqb_refl.
  - destruct (Ascii.eqb a c); [discriminate|].
    destruct (IndexByteString (s +:+ String c t) c); [discriminate | contradiction].
Qed.

Lemma IndexByteString_app_l (s t : string) (c : ascii) :
  IndexByteString s c <> None -> IndexByteString (s +:+ t) c <> None.
Proof.
  induction s as [|a s IH]; simpl; [congruence|].
  destruct (Ascii.eqb a c); [discriminate|].
  destruct (IndexByteString s c) eqn:E; [|congruence].
  intros _. destruct (IndexByteString (s +:+ t) c); [discriminate|].
  exfalso. by apply IH.
Qed.

Lemma LastIndexByteString_None (s : string) (c : ascii) :
  IndexByteString s c = None -> LastIndexByteString s c = None.
Proof.
  induction s as [|a s IH]; simpl; [reflexivity|].
  destruct (Ascii.eqb a c); [discriminate|].
  destruct (IndexByteString s c); [discriminate|]. intros _. by rewrite IH.
Qed.

Lemma LastIndexByteString_join (h q : string) (c : ascii) :
  IndexByteString q c = None ->
  LastIndexByteString (h +:+ String c q) c = Some (String.length h).
Proof.
  intros Hq. induction h as [|a h IH]; simpl.
  - by rewrite (LastIndexByteString_None _ _ Hq), Ascii.eqb_refl.
  - by rewrite IH.
Qed.

Lemma substring_app_l (h t : string) : substring 0 (String.length h) (h +:+ t) = h.
Proof.
  induction h as [|a h IH]; simpl; [by destruct t | by rewrite IH].
Qed.

Lemma sliceFrom_app (h t : string) (k : nat) :
  sliceFrom (h +:+ t) (String.length h + k) = sliceFrom t k.
Proof.
  induction h as [|a h IH]; [reflexivity|].
  change (sliceFrom (String a (h +:+ t)) (S (String.length h + k)) = sliceFrom t k).
  by rewrite sliceFrom_cons.
Qed.

(** Without an opening bracket in front, [splitHost] takes its plain
    branch. *)
Lemma splitHost_plain (hostport : string) (i : nat) :
  (forall rest, hostport <> String "[" rest) ->
  splitHost hostport i =
    match IndexByteString (slice hostport 0 i) ":" with
    | Some _ => inl tooManyColons
    | None => inr (slice hostport 0 i, 0%nat, 0%nat)
    end.
Proof.
  intros H. unfold splitHost. destruct hostport as [|a s]; [reflexivity|].
  simpl String.get.
  destruct a as [[] [] [] [] [] [] [] []]; try reflexivity.
  exfalso. by apply (H s).
Qed.

Lemma head_not_bracket (h t : string) :
  IndexByteString h "[" = None ->
  forall rest, h +:+ String ":" t <> String "[" rest.
Proof.
  intros Hh rest. destruct h as [|a h]; simpl; [discriminate|].
  intros [= -> _]. simpl in Hh. discriminate.
Qed.

(** Joining a host and a port that hold no colon and no bracket, and
    splitting again, gives both back. *)
Lemma SplitHostPort_join (h q : string) :
  IndexByteString h ":" = None -> IndexByteString h "[" = None ->
  IndexByteString h "]" = None ->
  IndexByteString q ":" = None -> IndexByteString q "[" = None ->
  IndexByteString q "]" = None ->
  SplitHostPort (h +:+ ":" +:+ q) = inr (h, q).
Proof.
  intros Hc Ho Hcl Qc Qo Qcl. unfold SplitHostPort.
  change (h +:+ ":" +:+ q) with (h +:+ String ":" q).
  rewrite (LastIndexByteString_join h q ":" Qc).
  rewrite splitHost_plain by (by apply head_not_bracket).
  unfold slice. rewrite Nat.sub_0_r, substring_app_l, Hc.
  rewrite sliceFrom_0.
  rewrite (IndexByteString_app h (String ":" q) "[" Ho) by (simpl; by rewrite Qo).
  rewrite (IndexByteString_app h (String ":" q) "]" Hcl) by (simpl; by rewrite Qcl).
  rewrite sliceFrom_app. by rewrite sliceFrom_cons, sliceFrom_0.
Qed.

(** A host with a colon and no bracket in front, joined with a port
    without colon, does not split. *)
Lemma SplitHostPort_join_colon (h q : string) :
  IndexByteString h ":" <> None ->
  (forall rest, h <> String "[" rest) ->
  IndexByteString q ":" = None ->
  SplitHostPort (h +:+ ":" +:+ q) = inl tooManyColons.
Proof.
  intros Hc Ho Qc. unfold SplitHostPort.
  change (h +:+ ":" +:+ q) with (h +:+ String ":" q).
  rewrite (LastIndexByteString_join h q ":" Qc).
  rewrite splitHost_plain.
  - unfold slice. rewrite Nat.sub_0_r, substring_app_l.
    destruct (IndexByteString h ":"); [reflexivity | contradiction].
  - intros rest. destruct h as [|a h]; simpl; [discriminate|].
    intros [= -> _]. by apply (Ho h).
Qed.

Lemma allDigits_no_byte (s : string) (c : ascii) :
  allDigits s -> ~ (48 <= byteOf c <= 57) -> IndexByteString s c = None.
Proof.
  intros Hs Hc. induction s as [|a s IH]; simpl; [reflexivity|].
  destruct (Ascii.eqb_spec a c) as [->|_].
  - exfalso. apply Hc. by apply (Hs 0%nat c).
  - rewrite IH; [reflexivity|]. intros i d Hd. by apply (Hs (S i) d).
Qed.

(** The dotted form of four bytes, as [IP.String] prints an IPv4 address. *)
Lemma itoa_byte (b : Byte.byte) :
  IndexByteString (itoa (Byte.to_N b)) ":" = None
  /\ IndexByteString (itoa (Byte.to_N b)) "[" = None
  /\ IndexByteString (itoa (Byte.to_N b)) "]" = None
  /\ IndexByteString (itoa (Byte.to_N b)) "." = None
  /\ decimalByte (itoa (Byte.to_N b)) = Some b.
Proof. destruct b; vm_compute; repeat split. Qed.

Lemma splitOn_single (s : string) (c : ascii) :
  IndexByteString s c = None -> splitOn c s = [s].
Proof.
  induction s as [|a s IH]; simpl; [reflexivity|].
  destruct (Ascii.eqb a c); [discriminate|].
  destruct (IndexByteString s c); [discriminate|]. intros _. by rewrite IH.
Qed.

Lemma splitOn_app (s t : string) (c : ascii) :
  IndexByteString s c = None -> splitOn c (s +:+ String c t) = s :: splitOn c t.
Proof.
  induction s as [|a s IH]; simpl.
  - intros _. by rewrite Ascii.eqb_refl.
  - destruct (Ascii.eqb a c); [discriminate|].
    destruct (IndexByteString s c); [discriminate|]. intros _. by rewrite IH.
Qed.

Lemma IP_String_v4 (ip : IP) (a b c d : Byte.byte) :
  To4 ip = Some [a; b; c; d] ->
  IP_String ip =
    itoa (Byte.to_N a) +:+ String "." (itoa (Byte.to_N b) +:+
      String "." (itoa (Byte.to_N c) +:+ String "." (itoa (Byte.to_N d)))).
Proof.
  intros H. unfold IP_String. rewrite H.
  destruct ip as [|x ip]; [discriminate | reflexivity].
Qed.

Lemma parseIPv4_dotted (a b c d : Byte.byte) :
  parseIPv4
    (itoa (Byte.to_N a) +:+ String "." (itoa (Byte.to_N b) +:+
       String "." (itoa (Byte.to_N c) +:+ String "." (itoa (Byte.to_N d)))))
  = Some (repeat x00 10 ++ [xff; xff; a; b; c; d])%list.
Proof.
  destruct (itoa_byte a) as (_ & _ & _ & Ha & Da).
  destruct (itoa_byte b) as (_ & _ & _ & Hb & Db).
  destruct (itoa_byte c) as (_ & _ & _ & Hc & Dc).
  destruct (itoa_byte d) as (_ & _ & _ & Hd & Dd).
  unfold parseIPv4.
  rewrite (splitOn_app _ _ "." Ha), (splitOn_app _ _ "." Hb),
    (splitOn_app _ _ "." Hc), (splitOn_single _ "." Hd).
  cbn [map]. by rewrite Da, Db, Dc, Dd.
Qed.

Lemma IndexByteString_app_cons (s t : string) (sep x : ascii) :
  IndexByteString s x = None -> Ascii.eqb sep x = false ->
  IndexByteString t x = None ->
  IndexByteString (s +:+ String sep t) x = None.
Proof.
  intros Hs Hsep Ht. apply IndexByteString_app; [exact Hs|].
  simpl. by rewrite Hsep, Ht.
Qed.

Lemma dotted_no_byte (a b c d : Byte.byte) (x : ascii) :
  x = ":"%char \/ x = "["%char \/ x = "]"%char ->
  IndexByteString
    (itoa (Byte.to_N a) +:+ String "." (itoa (Byte.to_N b) +:+
       String "." (itoa (Byte.to_N c) +:+ String "." (itoa (Byte.to_N d))))) x = None.
Proof.
  destruct (itoa_byte a) as (A1 & A2 & A3 & _).
  destruct (itoa_byte b) as (B1 & B2 & B3 & _).
  destruct (itoa_byte c) as (C1 & C2 & C3 & _).
  destruct (itoa_byte d) as (D1 & D2 & D3 & _).
  intros [ -> | [ -> | -> ] ];
    repeat (apply IndexByteString_app_cons; [assumption | reflexivity |]);
    assumption.
Qed.

Section CanonicalProofs.

Context (r1 r2 : string -> string + list IP).

(** X7: when the validator accepts an address whose first resolved IP is
    an IPv4 address, the canonical string it yields, ip:port, is accepted
    again with the same result, whatever the resolver then answers. *)
Theorem canonical_ipv4_validates_again (addr host ip port_ : string)
    (ip0 : IP) (rest : list IP) (p : PeerManager) :
  parsePeerAddress r1 addr p = inr (ip, port_) ->
  SplitHostPort addr = inr (host, port_) ->
  LookupIP r1 host = inr (ip0 :: rest) ->
  is_Some (To4 ip0) ->
  parsePeerAddress r2 (ip +:+ ":" +:+ port_) p = inr (ip, port_).
Proof.
  intros Hparse Hsplit Hlook [v4 Hv4].
  apply parsePeerAddress_inr in Hparse.
  destruct Hparse as (host' & n & ip0' & rest' & Hs & Hn & Hl & Hself & Hb & ->).
  rewrite Hsplit in Hs. injection Hs as <-.
  rewrite Hlook in Hl. injection Hl as <- <-.
  pose proof (To4_length _ _ Hv4) as Hlen.
  destruct v4 as [|a [|b [|c [|d [|x v4]]]]]; try discriminate. clear Hlen.
  rewrite (IP_String_v4 _ _ _ _ _ Hv4) in *.
  destruct (ParseUint_inr _ _ Hn) as (_ & Hd & _).
  set (ip1 := (repeat x00 10 ++ [xff; xff; a; b; c; d])%list).
  assert (H1 : To4 ip1 = Some [a; b; c; d]) by reflexivity.
  apply parsePeerAddress_inr.
  exists (itoa (Byte.to_N a) +:+ String "." (itoa (Byte.to_N b) +:+
            String "." (itoa (Byte.to_N c) +:+ String "." (itoa (Byte.to_N d))))),
    n, ip1, [].
  split.
  { apply SplitHostPort_join; try (apply dotted_no_byte; auto);
      apply allDigits_no_byte; try exact Hd; vm_compute; intros [H H']; congruence. }
  split; [exact Hn|].
  split.
  { unfold LookupIP. rewrite parseIPv4_dotted.
    destruct (String.eqb_spec
                (itoa (Byte.to_N a) +:+ String "." (itoa (Byte.to_N b) +:+
                   String "." (itoa (Byte.to_N c) +:+ String "." (itoa (Byte.to_N d)))))
                "") as [E|_]; [|reflexivity].
    exfalso. by apply append_cons_nonempty in E. }
  rewrite (IP_String_v4 _ _ _ _ _ H1).
  split; [exact Hself|]. split; [|reflexivity].
  change (inReservedBlock (privateIPBlocks p) ip1 = false).
  change (inReservedBlock (privateIPBlocks p) ip0 = false) in Hb.
  by rewrite (inReservedBlock_To4 _ _ _ H1), <- (inReservedBlock_To4 _ _ _ Hv4).
Qed.

End CanonicalProofs.

Lemma hexOf_head (n : N) : exists c rest, hexOf n = String c rest /\ c <> "["%char.
Proof.
  unfold hexOf, HexadecimalString.NilZero.string_of_uint.
  destruct (N.to_hex_uint n); simpl; eexists _, _; (split; [reflexivity | discriminate]).
Qed.

(** The text of eight fields has a colon and does not open with a
    bracket. *)
Lemma printGroups_colon (fuel : nat) (gs : list N) (zeros : option (nat * nat)) :
  IndexByteString (printGroups (S (S fuel)) gs zeros 0) ":" <> None
  /\ forall rest, printGroups (S (S fuel)) gs zeros 0 <> String "[" rest.
Proof.
  assert (Hnext : exists t, printGroups (S fuel) gs zeros 1 = String ":" t).
  { simpl. destruct zeros as [[s e]|]; [|eexists; reflexivity].
    destruct s as [|[|s]]; eexists; reflexivity. }
  destruct Hnext as [t Ht].
  assert (Hplain :
            IndexByteString
              ("" +:+ hexOf (nth 0 gs 0%N) +:+ printGroups (S fuel) gs zeros 1) ":" <> None
            /\ forall rest,
                "" +:+ hexOf (nth 0 gs 0%N) +:+ printGroups (S fuel) gs zeros 1
                <> String "[" rest).
  { rewrite Ht. split.
    - apply (IndexByteString_app_found (hexOf (nth 0 gs 0%N)) t ":").
    - intros rest. destruct (hexOf_head (nth 0 gs 0%N)) as (c & r & -> & Hc).
      intros [= E _]. contradiction. }
  change (printGroups (S (S fuel)) gs zeros 0) with
    (match zeros with
     | Some (s, e) =>
         if (0 =? s)%nat then
           "::" +:+ (if (8 <=? e)%nat then ""
                     else hexOf (nth e gs 0%N) +:+ printGroups (S fuel) gs zeros (S e))
         else "" +:+ hexOf (nth 0 gs 0%N) +:+ printGroups (S fuel) gs zeros 1
     | None => "" +:+ hexOf (nth 0 gs 0%N) +:+ printGroups (S fuel) gs zeros 1
     end).
  destruct zeros as [[s e]|]; [|exact Hplain].
  destruct (0 =? s)%nat; [|exact Hplain].
  split; [discriminate | intros rest; discriminate].
Qed.

Lemma IP_String_v6 (ip : IP) :
  length ip = 16%nat -> To4 ip = None ->
  IP_String ip = printGroups 8 (groups ip) (longestZeros (groups ip) 0 None) 0.
Proof.
  intros Hlen H. unfold IP_String. by rewrite H, Hlen.
Qed.

Section CanonicalIPv6Proofs.

Context (r1 r2 : string -> string + list IP).

(** X8: when the validator accepts an address whose first resolved IP is
    an IPv6 address, the canonical string it yields, ip:port with the bare
    IPv6 text, is refused as malformed when validated again, by any node
    and with any resolver. *)
Theorem canonical_ipv6_is_malformed (addr host ip port_ : string)
    (ip0 : IP) (rest : list IP) (p q : PeerManager) :
  parsePeerAddress r1 addr p = inr (ip, port_) ->
  SplitHostPort addr = inr (host, port_) ->
  LookupIP r1 host = inr (ip0 :: rest) ->
  length ip0 = 16%nat ->
  To4 ip0 = None ->
  parsePeerAddress r2 (ip +:+ ":" +:+ port_) q
  = inl (MalformedPeerAddress (ip +:+ ":" +:+ port_)).
Proof.
  intros Hparse Hsplit Hlook Hlen Hv6.
  apply parsePeerAddress_inr in Hparse.
  destruct Hparse as (host' & n & ip0' & rest' & Hs & Hn & Hl & _ & _ & ->).
  rewrite Hsplit in Hs. injection Hs as <-.
  rewrite Hlook in Hl. injection Hl as <- <-.
  destruct (ParseUint_inr _ _ Hn) as (_ & Hd & _).
  rewrite (IP_String_v6 _ Hlen Hv6).
  destruct (printGroups_colon 6 (groups ip0) (longestZeros (groups ip0) 0 None))
    as [Hcolon Hbracket].
  unfold parsePeerAddress.
  rewrite SplitHostPort_join_colon; [reflexivity | exact Hcolon | exact Hbracket |].
  apply allDigits_no_byte; [exact Hd|]. vm_compute. intros [H H']. congruence.
Qed.

End CanonicalIPv6Proofs.

(** ** Further properties of connecting, accepting and the main loop *)

Lemma forEach_rel {A : Type} (R : State -> State -> Prop) (l : list A)
    (body : A -> M unit) :
  (forall s, R s s) -> (forall s1 s2 s3, R s1 s2 -> R s2 s3 -> R s1 s3) ->
  (forall a s, R s (snd (body a s))) ->
  forall s, R s (snd (forEach l body s)).
Proof.
  intros Hrefl Htrans Hbody. induction l as [|a l IH]; intros s; simpl.
  - apply Hrefl.
  - unfold bind. destruct (body a s) as [u s1] eqn:E.
    apply Htrans with s1; [|apply IH].
    pose proof (Hbody a s) as H. by rewrite E in H.
Qed.

Section OutboundProofs.

Context (MAX_OUT : Z).
Context (Peer_Connect : Peer -> string -> string -> string -> option string).
Context (peerStore_Get : list Event -> Z -> string + list string).

(** The three ways [connect] ends. *)
Lemma connect_cases (addr : string) (s : State) :
  connect MAX_OUT Peer_Connect addr s =
    let h := handles s in
    let p := manager s in
    if bool_decide (len (outPeers p) = MAX_OUT \/ is_Some (outPeers p !! addr))
    then (Some "Too many peer connections",
          mkState p (S h) (evNewPeer h :: events s))
    else match Peer_Connect h addr (peerNonce p) (advertisedAddress p) with
         | Some err =>
             (Some err,
              mkState p (S h)
                (evConnect h addr (peerNonce p) (advertisedAddress p)
                   :: evNewPeer h :: events s))
         | None =>
             (None,
              mkState (with_outPeers p (<[addr:=h]> (outPeers p))) (S h)
                (evRun h :: evOnClose h (callRemoveFromOutboundSet addr)
                   :: evConnect h addr (peerNonce p) (advertisedAddress p)
                   :: evNewPeer h :: events s))
         end.
Proof.
  unfold connect, bind, NewPeer, onManager, updManager, onManager, getManager,
    emit, ret, advertisedAddress. simpl.
  rewrite addToOutboundSet_eq.
  case_bool_decide as Hc; simpl; [reflexivity|].
  destruct (Peer_Connect _ _ _ _) as [err|]; simpl; [|reflexivity].
  rewrite remove_after_add; [reflexivity|].
  destruct (outPeers (manager s) !! addr) eqn:E; [|reflexivity].
  exfalso. apply Hc. right. eauto.
Qed.

Lemma connect_handles (addr : string) (s : State) :
  handles (snd (connect MAX_OUT Peer_Connect addr s)) = S (handles s).
Proof.
  rewrite connect_cases. simpl. case_bool_decide; [reflexivity|].
  by destruct (Peer_Connect _ _ _ _).
Qed.

(** What [connectToPeers] does is made of steps of [connect] and of added
    events. *)
Lemma connectToPeers_rel (R : State -> State -> Prop) :
  (forall s, R s s) -> (forall s1 s2 s3, R s1 s2 -> R s2 s3 -> R s1 s3) ->
  (forall addr s, R s (snd (connect MAX_OUT Peer_Connect addr s))) ->
  (forall want s, R s (snd (emit (evGet want) s))) ->
  forall s, R s (snd (connectToPeers MAX_OUT Peer_Connect peerStore_Get s)).
Proof.
  intros Hrefl Htrans Hconn Hemit s.
  unfold connectToPeers, bind, getManager, getEvents, ret. simpl.
  destruct (negb (String.length (peer (manager s)) =? 0)%nat).
  - destruct (negb (outboundPeerCount (manager s) =? 0)); [apply Hrefl|].
    apply Hconn.
  - destruct (MAX_OUT - outboundPeerCount (manager s) <=? 0); [apply Hrefl|].
    set (s1 := mkState (manager s) (handles s)
                 (evGet (MAX_OUT - outboundPeerCount (manager s)) :: events s)).
    assert (H1 : R s s1) by apply (Hemit _ s).
    destruct (peerStore_Get (events s) _) as [err|addrs]; simpl; [exact H1|].
    pose proof (forEach_rel R addrs
                  (fun addr => connect MAX_OUT Peer_Connect addr ;;; ret tt)
                  Hrefl Htrans) as Hfor.
    assert (Hbody : forall a s0,
               R s0 (snd ((connect MAX_OUT Peer_Connect a ;;; ret tt) s0))).
    { intros a s0. unfold bind, ret.
      pose proof (Hconn a s0) as H.
      by destruct (connect MAX_OUT Peer_Connect a s0). }
    specialize (Hfor Hbody s1).
    destruct (forEach addrs _ s1) as [u s2]. simpl in *.
    by apply Htrans with s1.
Qed.

(** X9: when the handle is admitted and the connection succeeds,
    [connect] returns nil, the address is a key of the outbound set with the
    new handle, the close callback for that address is registered and the
    peer is started; calling that callback gives back the manager as it was
    before [connect]. *)
Theorem connect_success_then_close (addr : string) (s : State) :
  fst (addToOutboundSet MAX_OUT addr (handles s) (manager s)) = true ->
  Peer_Connect (handles s) addr (peerNonce (manager s))
               (advertisedAddress (manager s)) = None ->
  let s' := snd (connect MAX_OUT Peer_Connect addr s) in
  fst (connect MAX_OUT Peer_Connect addr s) = None
  /\ outPeers (manager s') !! addr = Some (handles s)
  /\ len (outPeers (manager s')) = len (outPeers (manager s)) + 1
  /\ events s'
     = evRun (handles s)
         :: evOnClose (handles s) (callRemoveFromOutboundSet addr)
         :: evConnect (handles s) addr (peerNonce (manager s))
              (advertisedAddress (manager s))
         :: evNewPeer (handles s) :: events s
  /\ runCallback (callRemoveFromOutboundSet addr) (manager s') = manager s.
Proof.
  intros Hadd Hconn. rewrite connect_cases. simpl.
  rewrite addToOutboundSet_eq in Hadd.
  case_bool_decide as Hc; [discriminate|]. rewrite Hconn. simpl.
  assert (Hn : outPeers (manager s) !! addr = None).
  { destruct (outPeers (manager s) !! addr) eqn:E; [|reflexivity].
    exfalso. apply Hc. right. eauto. }
  split; [reflexivity|]. split; [apply lookup_insert_eq|].
  split; [by apply len_insert_fresh|]. split; [reflexivity|].
  by apply remove_after_add.
Qed.

(** X10: with an explicit peer configured, [connectToPeers] never asks
    the store for addresses: with an outbound connection present it does
    nothing, and without one it is [connect] to that peer, whose error, if
    any, it returns. *)
Theorem connectToPeers_explicit_peer (s : State) :
  peer (manager s) <> "" ->
  (outPeers (manager s) <> ∅ ->
   connectToPeers MAX_OUT Peer_Connect peerStore_Get s = (None, s))
  /\ (outPeers (manager s) = ∅ ->
      connectToPeers MAX_OUT Peer_Connect peerStore_Get s
      = connect MAX_OUT Peer_Connect (peer (manager s)) s)
  /\ forall want,
      In (evGet want) (events (snd (connectToPeers MAX_OUT Peer_Connect peerStore_Get s))) ->
      In (evGet want) (events s).
Proof.
  intros Hp.
  assert (Hlen : negb (String.length (peer (manager s)) =? 0)%nat = true).
  { destruct (peer (manager s)); [congruence | reflexivity]. }
  assert (Hcases :
            connectToPeers MAX_OUT Peer_Connect peerStore_Get s =
              if negb (outboundPeerCount (manager s) =? 0) then (None, s)
              else connect MAX_OUT Peer_Connect (peer (manager s)) s).
  { unfold connectToPeers, bind, getManager, ret. simpl. rewrite Hlen.
    by destruct (negb (outboundPeerCount (manager s) =? 0)). }
  assert (Hcount : outboundPeerCount (manager s) = 0 <-> outPeers (manager s) = ∅).
  { unfold outboundPeerCount, len. rewrite <- map_size_empty_iff. lia. }
  split; [|split].
  - intros Hne. rewrite Hcases.
    destruct (Z.eqb_spec (outboundPeerCount (manager s)) 0) as [E|_]; [|reflexivity].
    apply Hcount in E. contradiction.
  - intros He. rewrite Hcases. apply Hcount in He. by rewrite He.
  - intros want. rewrite Hcases.
    destruct (negb (outboundPeerCount (manager s) =? 0)); [auto|].
    rewrite connect_cases. simpl.
    case_bool_decide; simpl.
    + intros [Hin|Hin]; [discriminate | exact Hin].
    + destruct (Peer_Connect _ _ _ _); simpl; intuition discriminate.
Qed.

(** X11: without an explicit peer and below the limit, [connectToPeers]
    asks the store for exactly the number of free outbound places; an error
    of the store is returned and nothing else happens; otherwise the result
    is nil whatever the attempts come to, and one handle is made for each
    address the store returned. *)
Theorem connectToPeers_discovery (s : State) :
  peer (manager s) = "" ->
  len (outPeers (manager s)) < MAX_OUT ->
  let want := MAX_OUT - len (outPeers (manager s)) in
  (forall err,
      peerStore_Get (events s) want = inl err ->
      connectToPeers MAX_OUT Peer_Connect peerStore_Get s
      = (Some err, mkState (manager s) (handles s) (evGet want :: events s)))
  /\ (forall addrs,
      peerStore_Get (events s) want = inr addrs ->
      fst (connectToPeers MAX_OUT Peer_Connect peerStore_Get s) = None
      /\ handles (snd (connectToPeers MAX_OUT Peer_Connect peerStore_Get s))
         = (handles s + length addrs)%nat).
Proof.
  intros Hp Hlt want.
  assert (Hw : (want <=? 0) = false) by (apply Z.leb_gt; unfold want; lia).
  split.
  - intros err Hget.
    unfold connectToPeers, bind, getManager, getEvents, emit, ret,
      outboundPeerCount. simpl.
    rewrite Hp. simpl. fold want. by rewrite Hw, Hget.
  - intros addrs Hget.
    unfold connectToPeers, bind, getManager, getEvents, emit, ret,
      outboundPeerCount. simpl.
    rewrite Hp. simpl. fold want. rewrite Hw, Hget.
    set (s1 := mkState (manager s) (handles s) (evGet want :: events s)).
    assert (Hh : forall l s0,
               handles (snd (forEach l
                               (fun addr => connect MAX_OUT Peer_Connect addr ;;; ret tt)
                               s0))
               = (handles s0 + length l)%nat).
    { induction l as [|a l IH]; intros s0; simpl; [lia|].
      unfold bind at 1. unfold bind at 1, ret at 1.
      pose proof (connect_handles a s0) as Hc.
      destruct (connect MAX_OUT Peer_Connect a s0) as [r s2].
      simpl in Hc. rewrite IH, Hc. lia. }
    specialize (Hh addrs s1).
    destruct (forEach addrs _ s1) as [u s2]. simpl in *. split; [reflexivity|].
    exact Hh.
Qed.

End OutboundProofs.

Section InboundProofs.

Context (MAX_IN : Z).
Context (resolver : string -> string + list IP).

(** What the address header does to a request of another node. *)
Lemma peerHandler_cases (r : Request) (s : State) :
  hdrPeerNonce r <> peerNonce (manager s) ->
  peerHandler MAX_IN resolver r s = (wroteHeader StatusTooManyRequests, s)
  \/ peerHandler MAX_IN resolver r s = peerHandler MAX_IN resolver (withoutAddress r) s
  \/ exists ip port_,
       parsePeerAddress resolver (hdrPeerAddress r) (manager s) = inr (ip, port_)
       /\ peerHandler MAX_IN resolver r s
          = peerHandler MAX_IN resolver (withoutAddress r)
                        (stored (ip +:+ ":" +:+ port_) s).
Proof.
  intros Hn. apply String.eqb_neq in Hn.
  unfold peerHandler, checkTheirAddress, bind, getManager, ret, emit. simpl.
  rewrite Hn.
  destruct (negb (String.length (hdrPeerAddress r) =? 0)%nat); simpl; [|by right; left].
  destruct (parsePeerAddress resolver (hdrPeerAddress r) (manager s))
    as [e|[ip q]] eqn:Hp; simpl; [by right; left|].
  destruct (existsInOutboundSet (ip +:+ ":" +:+ q) (manager s)); simpl; [by left|].
  right; right. exists ip, q. split; reflexivity.
Qed.

(** X12: when the inbound set is at its limit, a request of another node
    whose upgrade succeeds ends either with the too-many-requests reply and
    no change at all, or with the new peer shut down, both sets as they were
    and no callback registered. *)
Theorem full_inbound_set_admits_nobody (r : Request) (s : State) (a : string) :
  hdrPeerNonce r <> peerNonce (manager s) ->
  len (inPeers (manager s)) = MAX_IN ->
  upgrade r = Some a ->
  let res := peerHandler MAX_IN resolver r s in
  res = (wroteHeader StatusTooManyRequests, s)
  \/ (fst res = shutDown (handles s)
      /\ manager (snd res) = manager s
      /\ handles (snd res) = S (handles s)
      /\ exists before,
           events (snd res) = evShutdown (handles s) :: evNewPeer (handles s) :: before
           /\ (before = events s \/ exists addr, before = evStore addr :: events s)).
Proof.
  intros Hn Hfull Hup res. subst res.
  assert (Htail : forall s0,
             manager s0 = manager s ->
             peerHandler MAX_IN resolver (withoutAddress r) s0
             = (shutDown (handles s0),
                mkState (manager s0) (S (handles s0))
                  (evShutdown (handles s0) :: evNewPeer (handles s0) :: events s0))).
  { intros s0 Hm. rewrite peerHandler_no_address by (by rewrite Hm).
    rewrite Hup. simpl. rewrite addToInboundSet_eq.
    rewrite bool_decide_eq_true_2; [reflexivity|]. left. by rewrite Hm. }
  destruct (peerHandler_cases r s Hn) as [H|[H|(ip & q & _ & H)]].
  - by left.
  - right. rewrite H, (Htail s eq_refl). simpl.
    repeat split. exists (events s). auto.
  - right. rewrite H, (Htail (stored (ip +:+ ":" +:+ q) s) eq_refl). simpl.
    repeat split. exists (evStore (ip +:+ ":" +:+ q) :: events s). eauto.
Qed.

(** X13: when the handler starts a peer, the peer is the new handle,
    stored in the inbound set under [r.RemoteAddr], and the callback
    registered removes the address of the upgraded connection.  If the two
    addresses are the same text, the callback gives back the manager as it
    was before the request; if they differ, the entry stays after the
    callback. *)
Theorem accepted_inbound_then_close (r : Request) (s : State) (h : Peer) :
  fst (peerHandler MAX_IN resolver r s) = running h ->
  let s' := snd (peerHandler MAX_IN resolver r s) in
  h = handles s
  /\ inPeers (manager (s)) !! RemoteAddr r = None
  /\ inPeers (manager s') !! RemoteAddr r = Some h
  /\ outPeers (manager s') = outPeers (manager s)
  /\ exists a before,
       upgrade r = Some a
       /\ events s' = evRun h :: evOnClose h (callRemoveFromInboundSet a) :: before
       /\ (a = RemoteAddr r ->
           runCallback (callRemoveFromInboundSet a) (manager s') = manager s)
       /\ (a <> RemoteAddr r ->
           inPeers (runCallback (callRemoveFromInboundSet a) (manager s'))
             !! RemoteAddr r = Some h).
Proof.
  intros Hrun s'. subst s'.
  destruct (String.eqb_spec (hdrPeerNonce r) (peerNonce (manager s))) as [E|Hn].
  { unfold peerHandler, bind, getManager in Hrun. simpl in Hrun.
    apply String.eqb_eq in E. rewrite E in Hrun. discriminate. }
  assert (Htail : forall s0,
             manager s0 = manager s -> handles s0 = handles s ->
             fst (peerHandler MAX_IN resolver (withoutAddress r) s0) = running h ->
             let s' := snd (peerHandler MAX_IN resolver (withoutAddress r) s0) in
             h = handles s
             /\ inPeers (manager (s)) !! RemoteAddr r = None
             /\ inPeers (manager s') !! RemoteAddr r = Some h
             /\ outPeers (manager s') = outPeers (manager s)
             /\ exists a before,
                  upgrade r = Some a
                  /\ events s' = evRun h :: evOnClose h (callRemoveFromInboundSet a) :: before
                  /\ (a = RemoteAddr r ->
                      runCallback (callRemoveFromInboundSet a) (manager s') = manager s)
                  /\ (a <> RemoteAddr r ->
                      inPeers (runCallback (callRemoveFromInboundSet a) (manager s'))
                        !! RemoteAddr r = Some h)).
  { intros s0 Hm Hh. rewrite peerHandler_no_address by (by rewrite Hm).
    destruct (upgrade r) as [a|]; [|discriminate]. simpl.
    rewrite addToInboundSet_eq, Hm, Hh.
    case_bool_decide as Hc; simpl; [discriminate|].
    intros [= <-].
    assert (Hnone : inPeers (manager s) !! RemoteAddr r = None).
    { destruct (inPeers (manager s) !! RemoteAddr r) eqn:E; [|reflexivity].
      exfalso. apply Hc. right. eauto. }
    split; [reflexivity|]. split; [exact Hnone|].
    split; [apply lookup_insert_eq|]. split; [reflexivity|].
    exists a, (evNewPeer (handles s) :: events s0).
    split; [reflexivity|]. split; [reflexivity|]. split.
    - intros ->. by apply remove_after_add_in.
    - intros Hne. simpl. rewrite lookup_delete_ne by exact Hne.
      apply lookup_insert_eq. }
  destruct (peerHandler_cases r s Hn) as [H|[H|(ip & q & _ & H)]].
  - rewrite H in Hrun. discriminate.
  - rewrite H in *. by apply Htail.
  - rewrite H in *. by apply Htail.
Qed.

End InboundProofs.

(** ** The running system *)

Section SystemProofs.

Context (MAX_OUT MAX_IN : Z).
Context (resolver : string -> string + list IP).
Context (Peer_Connect : Peer -> string -> string -> string -> option string).
Context (peerStore_Get : list Event -> Z -> string + list string).
Context (peerStore_Store : string -> option string).

Abbreviation step :=
  (systemStep MAX_OUT MAX_IN resolver Peer_Connect peerStore_Get peerStore_Store).

Abbreviation moves := (rtc (Move MAX_OUT MAX_IN)).

Lemma emit_move (e : Event) (s : State) : Move MAX_OUT MAX_IN s (snd (emit e s)).
Proof. by apply moveEvents. Qed.

Lemma connect_move (addr : string) (s : State) :
  Move MAX_OUT MAX_IN s (snd (connect MAX_OUT Peer_Connect addr s)).
Proof.
  rewrite connect_cases. simpl. case_bool_decide as Hc; simpl.
  - by apply moveHandle.
  - destruct (Peer_Connect _ _ _ _); simpl; [by apply moveHandle|].
    apply moveOutbound with addr; simpl; try reflexivity.
    + destruct (outPeers (manager s) !! addr) eqn:E; [|reflexivity].
      exfalso. apply Hc. right. eauto.
    + tauto.
Qed.

Lemma onDiscovered_rel (R : State -> State -> Prop) :
  (forall s, R s s) -> (forall s1 s2 s3, R s1 s2 -> R s2 s3 -> R s1 s3) ->
  (forall addr s, R s (snd (connect MAX_OUT Peer_Connect addr s))) ->
  (forall e s, R s (snd (emit e s))) ->
  forall addr s,
    R s (snd (onDiscovered MAX_OUT resolver Peer_Connect peerStore_Get
                           peerStore_Store addr s)).
Proof.
  intros Hrefl Htrans Hconn Hemit addr s.
  unfold onDiscovered, bind, getManager, ret. simpl.
  destruct (parsePeerAddress resolver addr (manager s)) as [e|[ip q]]; [apply Hrefl|].
  pose proof (Hemit (evStore (ip +:+ ":" +:+ q)) s) as H1.
  unfold emit in *. simpl in *.
  destruct (peerStore_Store (ip +:+ ":" +:+ q)); [exact H1|].
  pose proof (connectToPeers_rel MAX_OUT Peer_Connect peerStore_Get R
                Hrefl Htrans Hconn (fun want => Hemit (evGet want))
                (mkState (manager s) (handles s)
                   (evStore (ip +:+ ":" +:+ q) :: events s))) as H2.
  destruct (connectToPeers _ _ _ _) as [u s2]. simpl in *.
  by apply Htrans with (mkState (manager s) (handles s)
                          (evStore (ip +:+ ":" +:+ q) :: events s)).
Qed.

Lemma loopStep_rel (R : State -> State -> Prop) :
  (forall s, R s s) -> (forall s1 s2 s3, R s1 s2 -> R s2 s3 -> R s1 s3) ->
  (forall addr s, R s (snd (connect MAX_OUT Peer_Connect addr s))) ->
  (forall e s, R s (snd (emit e s))) ->
  forall e s,
    R s (snd (loopStep MAX_OUT resolver Peer_Connect peerStore_Get
                       peerStore_Store e s)).
Proof.
  intros Hrefl Htrans Hconn Hemit [addr|] s; simpl.
  - by apply onDiscovered_rel.
  - unfold bind, ret.
    pose proof (connectToPeers_rel MAX_OUT Peer_Connect peerStore_Get R
                  Hrefl Htrans Hconn (fun want => Hemit (evGet want)) s) as H.
    by destruct (connectToPeers _ _ _ _).
Qed.

Lemma peerHandler_moves (r : Request) (s : State) :
  moves s (snd (peerHandler MAX_IN resolver r s)).
Proof.
  destruct (String.eqb_spec (hdrPeerNonce r) (peerNonce (manager s))) as [E|Hn].
  { unfold peerHandler, bind, getManager. simpl.
    apply String.eqb_eq in E. rewrite E. apply rtc_refl. }
  assert (Htail : forall s0,
             manager s0 = manager s ->
             moves s0 (snd (peerHandler MAX_IN resolver (withoutAddress r) s0))).
  { intros s0 Hm. rewrite peerHandler_no_address by (by rewrite Hm).
    destruct (upgrade r) as [a|]; [|apply rtc_refl]. simpl.
    rewrite addToInboundSet_eq. case_bool_decide as Hc; simpl; apply rtc_once.
    - by apply moveHandle.
    - apply moveInbound with (RemoteAddr r); simpl; try reflexivity.
      + destruct (inPeers (manager s0) !! RemoteAddr r) eqn:E; [|reflexivity].
        exfalso. apply Hc. right. eauto.
      + tauto. }
  destruct (peerHandler_cases MAX_IN resolver r s Hn) as [H|[H|(ip & q & _ & H)]];
    rewrite H.
  - apply rtc_refl.
  - by apply Htail.
  - eapply rtc_l; [|by apply Htail]. by apply moveEvents.
Qed.

Lemma systemStep_moves (e : SystemEvent) (s : State) : moves s (snd (step e s)).
Proof.
  destruct e as [e|r|cb]; simpl.
  - apply (loopStep_rel moves).
    + intros. apply rtc_refl.
    + intros. by etrans.
    + intros. apply rtc_once, connect_move.
    + intros. apply rtc_once, emit_move.
  - unfold bind, ret. pose proof (peerHandler_moves r s) as H.
    by destruct (peerHandler MAX_IN resolver r s).
  - apply rtc_once. by apply moveClosed with cb.
Qed.

Lemma system_moves (es : list SystemEvent) (s : State) :
  moves s (snd (forEach es step s)).
Proof.
  apply (forEach_rel moves).
  - intros. apply rtc_refl.
  - intros. by etrans.
  - apply systemStep_moves.
Qed.

(** An invariant of every move is an invariant of the system. *)
Lemma system_invariant (I : State -> Prop) :
  (forall s s', Move MAX_OUT MAX_IN s s' -> I s -> I s') ->
  forall es s, I s -> I (snd (forEach es step s)).
Proof.
  intros Hmove es s Hs. pose proof (system_moves es s) as Hm.
  induction Hm as [|x y z Hxy _ IH]; [exact Hs|]. apply IH. by apply (Hmove x y).
Qed.

Lemma Move_bounded (s s' : State) :
  Move MAX_OUT MAX_IN s s' ->
  bounded MAX_OUT MAX_IN (manager s) -> bounded MAX_OUT MAX_IN (manager s').
Proof.
  intros [Hm _|Hm _|addr Hn Hlen Hm _|addr Hn Hlen Hm _|cb Hm _] [Ho Hi];
    rewrite Hm; unfold bounded; simpl; auto.
  - rewrite len_insert_fresh by exact Hn. split; [lia | exact Hi].
  - rewrite len_insert_fresh by exact Hn. split; [exact Ho | lia].
  - destruct cb as [a|a]; simpl.
    + pose proof (len_delete_le (outPeers (manager s)) a). split; [lia | exact Hi].
    + pose proof (len_delete_le (inPeers (manager s)) a). split; [exact Ho | lia].
Qed.

Lemma Move_owned (s s' : State) :
  Move MAX_OUT MAX_IN s s' ->
  handlesBelow s /\ ownedOnce (manager s) ->
  handlesBelow s' /\ ownedOnce (manager s').
Proof.
  unfold handlesBelow, ownedOnce.
  intros [Hm Hh|Hm Hh|addr Hn Hlen Hm Hh|addr Hn Hlen Hm Hh|cb Hm Hh]
         (Hb & Hoo & Hii & Hoi); rewrite Hm, Hh; simpl.
  - auto.
  - split; [|auto]. intros a h H. apply Hb in H. lia.
  - assert (Hfresh : forall b, outPeers (manager s) !! b <> Some (handles s)
                               /\ inPeers (manager s) !! b <> Some (handles s)).
    { intros b. split; intros H; [specialize (Hb b _ (or_introl H))
                                 | specialize (Hb b _ (or_intror H))]; lia. }
    split; [|split; [|split]].
    + intros a h [H|H].
      * apply lookup_insert_Some in H as [[_ <-]|[_ H]]; [lia|].
        specialize (Hb a h (or_introl H)). lia.
      * specialize (Hb a h (or_intror H)). lia.
    + intros a b h Ha Hb'.
      apply lookup_insert_Some in Ha as [[<- <-]|[Hna Ha]];
        apply lookup_insert_Some in Hb' as [[<- E]|[Hnb Hb']]; subst; try reflexivity.
      * exfalso. by apply (proj1 (Hfresh b)).
      * exfalso. by apply (proj1 (Hfresh a)).
      * by apply (Hoo a b h).
    + exact Hii.
    + intros a b h Ha Hb'.
      apply lookup_insert_Some in Ha as [[_ <-]|[_ Ha]].
      * by apply (proj2 (Hfresh b)).
      * by apply (Hoi a b h).
  - assert (Hfresh : forall b, outPeers (manager s) !! b <> Some (handles s)
                               /\ inPeers (manager s) !! b <> Some (handles s)).
    { intros b. split; intros H; [specialize (Hb b _ (or_introl H))
                                 | specialize (Hb b _ (or_intror H))]; lia. }
    split; [|split; [|split]].
    + intros a h [H|H].
      * specialize (Hb a h (or_introl H)). lia.
      * apply lookup_insert_Some in H as [[_ <-]|[_ H]]; [lia|].
        specialize (Hb a h (or_intror H)). lia.
    + exact Hoo.
    + intros a b h Ha Hb'.
      apply lookup_insert_Some in Ha as [[<- <-]|[Hna Ha]];
        apply lookup_insert_Some in Hb' as [[<- E]|[Hnb Hb']]; subst; try reflexivity.
      * exfalso. by apply (proj2 (Hfresh b)).
      * exfalso. by apply (proj2 (Hfresh a)).
      * by apply (Hii a b h).
    + intros a b h Ha Hb'.
      apply lookup_insert_Some in Hb' as [[_ <-]|[_ Hb']].
      * by apply (proj1 (Hfresh a)).
      * by apply (Hoi a b h).
  - destruct cb as [x|x]; simpl.
    + split; [|split; [|split]].
      * intros a h [H|H]; [apply lookup_delete_Some in H as [_ H]|];
          eauto using or_introl, or_intror.
      * intros a b h Ha Hb'. apply lookup_delete_Some in Ha as [_ Ha].
        apply lookup_delete_Some in Hb' as [_ Hb']. by apply (Hoo a b h).
      * exact Hii.
      * intros a b h Ha Hb'. apply lookup_delete_Some in Ha as [_ Ha].
        by apply (Hoi a b h).
    + split; [|split; [|split]].
      * intros a h [H|H]; [|apply lookup_delete_Some in H as [_ H]];
          eauto using or_introl, or_intror.
      * exact Hoo.
      * intros a b h Ha Hb'. apply lookup_delete_Some in Ha as [_ Ha].
        apply lookup_delete_Some in Hb' as [_ Hb']. by apply (Hii a b h).
      * intros a b h Ha Hb'. apply lookup_delete_Some in Hb' as [_ Hb'].
        by apply (Hoi a b h).
Qed.

Lemma Move_identity (p0 : PeerManager) (s s' : State) :
  Move MAX_OUT MAX_IN s s' ->
  sameIdentity (manager s) p0 -> sameIdentity (manager s') p0.
Proof.
  intros [Hm _|Hm _|addr _ _ Hm _|addr _ _ Hm _|cb Hm _] H; rewrite Hm; auto.
  destruct cb; exact H.
Qed.

(** X14: through any sequence of operations of the running manager
    (an address discovered, a timer tick, an inbound request handled, a close
    callback called), each run to its end, a manager whose sets are within
    their limits keeps them within their limits. *)
Theorem system_keeps_limits (es : list SystemEvent) (s : State) :
  bounded MAX_OUT MAX_IN (manager s) ->
  bounded MAX_OUT MAX_IN (manager (snd (forEach es step s))).
Proof.
  apply (system_invariant (fun s => bounded MAX_OUT MAX_IN (manager s))).
  apply Move_bounded.
Qed.

(** X15: through any sequence of these operations, every handle in a
    set was made by [NewPeer], and no handle is held under two addresses or
    by both sets. *)
Theorem handles_owned_once (es : list SystemEvent) (s : State) :
  handlesBelow s -> ownedOnce (manager s) ->
  handlesBelow (snd (forEach es step s))
  /\ ownedOnce (manager (snd (forEach es step s))).
Proof.
  intros Hb Ho.
  apply (system_invariant (fun s => handlesBelow s /\ ownedOnce (manager s)));
    [apply Move_owned | by split].
Qed.

(** X16: through any sequence of these operations, the external IP,
    the explicit peer, the port, the flags, the nonce and the reserved
    blocks stay as they were when it started. *)
Theorem identity_is_fixed (es : list SystemEvent) (s : State) :
  sameIdentity (manager (snd (forEach es step s))) (manager s).
Proof.
  apply (system_invariant (fun s' => sameIdentity (manager s') (manager s))).
  - apply Move_identity.
  - by repeat split.
Qed.

End SystemProofs.

Section FrameProofs.

Context (MAX_OUT MAX_IN : Z).
Context (resolver : string -> string + list IP).
Context (Peer_Connect : Peer -> string -> string -> string -> option string).
Context (peerStore_Get : list Event -> Z -> string + list string).
Context (peerStore_Store : string -> option string).

(** X17: the main loop never changes the inbound set, whatever it
    receives, and the handler of an inbound request never changes the
    outbound set. *)
Theorem loop_and_handler_frames (es : list LoopEvent) (r : Request) (s : State) :
  inPeers (manager (snd (mainLoop MAX_OUT resolver Peer_Connect peerStore_Get
                                  peerStore_Store es s)))
  = inPeers (manager s)
  /\ outPeers (manager (snd (peerHandler MAX_IN resolver r s))) = outPeers (manager s).
Proof.
  split.
  - unfold mainLoop.
    apply (forEach_rel (fun s s' => inPeers (manager s') = inPeers (manager s))).
    + reflexivity.
    + intros s1 s2 s3 H12 H23. by rewrite H23.
    + apply (loopStep_rel MAX_OUT resolver Peer_Connect peerStore_Get peerStore_Store
               (fun s s' => inPeers (manager s') = inPeers (manager s))).
      * reflexivity.
      * intros s1 s2 s3 H12 H23. by rewrite H23.
      * intros addr s0. rewrite connect_cases. simpl.
        case_bool_decide; [reflexivity|]. by destruct (Peer_Connect _ _ _ _).
      * reflexivity.
  - destruct (String.eqb_spec (hdrPeerNonce r) (peerNonce (manager s))) as [E|Hn].
    { unfold peerHandler, bind, getManager. simpl.
      apply String.eqb_eq in E. by rewrite E. }
    assert (Htail : forall s0,
               manager s0 = manager s ->
               outPeers (manager (snd (peerHandler MAX_IN resolver (withoutAddress r) s0)))
               = outPeers (manager s)).
    { intros s0 Hm. rewrite peerHandler_no_address by (by rewrite Hm).
      destruct (upgrade r); simpl; [|by rewrite Hm].
      rewrite addToInboundSet_eq. case_bool_decide; simpl; by rewrite Hm. }
    destruct (peerHandler_cases MAX_IN resolver r s Hn) as [H|[H|(ip & q & _ & H)]];
      rewrite H; [reflexivity | by apply Htail | by apply Htail].
Qed.

(** X18: after start-up (where [run] stores the explicit peer as it was
    configured), the peer store is handed an address only for a discovered
    address or for the address header of an inbound request, and then it is
    the canonical string ip:port of that very address, accepted by the
    validator for the manager as it was at that step.  A timer tick and a
    close callback store nothing, and neither do [connect] and
    [connectToPeers]. *)
Theorem stores_only_validated :
  (forall (e : SystemEvent) (s : State) (a : string),
      In (evStore a)
         (events (snd (systemStep MAX_OUT MAX_IN resolver Peer_Connect peerStore_Get
                                  peerStore_Store e s))) ->
      In (evStore a) (events s)
      \/ exists addr ip port_,
           (e = Loop (Discovered addr)
            \/ exists r, e = Inbound r /\ hdrPeerAddress r = addr)
           /\ parsePeerAddress resolver addr (manager s) = inr (ip, port_)
           /\ a = ip +:+ ":" +:+ port_)
  /\ (forall (addr : string) (s : State) (a : string),
      In (evStore a) (events (snd (connect MAX_OUT Peer_Connect addr s))) ->
      In (evStore a) (events s))
  /\ (forall (s : State) (a : string),
      In (evStore a)
         (events (snd (connectToPeers MAX_OUT Peer_Connect peerStore_Get s))) ->
      In (evStore a) (events s)).
Proof.
  set (R := fun s s' : State =>
              forall a, In (evStore a) (events s') -> In (evStore a) (events s)).
  assert (Hrefl : forall s, R s s) by (intros s0 a0 H; exact H).
  assert (Htrans : forall s1 s2 s3, R s1 s2 -> R s2 s3 -> R s1 s3).
  { intros s1 s2 s3 H12 H23 a0 H. by apply H12, H23. }
  assert (Hconn : forall addr s0, R s0 (snd (connect MAX_OUT Peer_Connect addr s0))).
  { intros addr s0 a0. rewrite connect_cases. simpl.
    case_bool_decide; simpl; [intuition discriminate|].
    destruct (Peer_Connect _ _ _ _); simpl; intuition discriminate. }
  assert (Hget : forall want s0, R s0 (snd (emit (evGet want) s0))).
  { intros want s0 a0. simpl. intuition discriminate. }
  pose proof (connectToPeers_rel MAX_OUT Peer_Connect peerStore_Get R
                Hrefl Htrans Hconn Hget) as Hctp.
  split; [|split; [exact Hconn | exact Hctp]].
  intros e s a.
  destruct e as [[addr|]|r|cb]; simpl.
  - unfold onDiscovered, bind, getManager, ret, emit. simpl.
    destruct (parsePeerAddress resolver addr (manager s)) as [err|[ip q]] eqn:Hp;
      simpl; [by left|].
    assert (Hst : forall a0,
               In (evStore a0) (evStore (ip +:+ ":" +:+ q) :: events s) ->
               In (evStore a0) (events s)
               \/ exists addr0 ip port_,
                    (Loop (Discovered addr) = Loop (Discovered addr0)
                     \/ exists r, Loop (Discovered addr) = Inbound r
                                  /\ hdrPeerAddress r = addr0)
                    /\ parsePeerAddress resolver addr0 (manager s) = inr (ip, port_)
                    /\ a0 = ip +:+ ":" +:+ port_).
    { intros a0 [[= <-]|H]; [right | by left].
      exists addr, ip, q. auto. }
    destruct (peerStore_Store (ip +:+ ":" +:+ q)); simpl; [apply Hst|].
    specialize (Hctp (mkState (manager s) (handles s)
                        (evStore (ip +:+ ":" +:+ q) :: events s))).
    destruct (connectToPeers _ _ _ _) as [u s2]. simpl in *.
    intros H. apply Hst. by apply Hctp.
  - unfold bind, ret. specialize (Hctp s).
    destruct (connectToPeers _ _ _ _) as [u s2]. simpl in *.
    intros H. left. by apply Hctp.
  - unfold bind, ret.
    assert (Hh : In (evStore a) (events (snd (peerHandler MAX_IN resolver r s))) ->
                 In (evStore a) (events s)
                 \/ exists addr ip port_,
                      (Inbound r = Loop (Discovered addr)
                       \/ exists r0, Inbound r = Inbound r0 /\ hdrPeerAddress r0 = addr)
                      /\ parsePeerAddress resolver addr (manager s) = inr (ip, port_)
                      /\ a = ip +:+ ":" +:+ port_);
      [|by destruct (peerHandler MAX_IN resolver r s)].
    destruct (String.eqb_spec (hdrPeerNonce r) (peerNonce (manager s))) as [E|Hn].
    { unfold peerHandler, bind, getManager. simpl.
      apply String.eqb_eq in E. rewrite E. by left. }
    assert (Htail : forall s0,
               manager s0 = manager s ->
               In (evStore a)
                  (events (snd (peerHandler MAX_IN resolver (withoutAddress r) s0))) ->
               In (evStore a) (events s0)).
    { intros s0 Hm. rewrite peerHandler_no_address by (by rewrite Hm).
      destruct (upgrade r); [|auto]. simpl.
      destruct (addToInboundSet MAX_IN (RemoteAddr r) (handles s0) (manager s0))
        as [[|] p']; simpl; intuition discriminate. }
    destruct (peerHandler_cases MAX_IN resolver r s Hn) as [H|[H|(ip & q & Hp & H)]];
      rewrite H.
    + by left.
    + intros Hin. left. by apply Htail.
    + intros Hin. apply Htail in Hin; [|reflexivity].
      destruct Hin as [[= <-]|Hin]; [right | by left].
      exists (hdrPeerAddress r), ip, q. split; [|by split].
      right. by exists r.
  - by left.
Qed.

(** X19: a discovered address that the validator refuses changes
    nothing: it is not stored and no connection is attempted; an address
    that is accepted but that the store fails to save is recorded as handed
    to the store, and no connection is attempted. *)
Theorem discovered_address_dropped (addr : string) (s : State) :
  (forall err,
      parsePeerAddress resolver addr (manager s) = inl err ->
      onDiscovered MAX_OUT resolver Peer_Connect peerStore_Get peerStore_Store addr s
      = (tt, s))
  /\ (forall ip port_ err,
      parsePeerAddress resolver addr (manager s) = inr (ip, port_) ->
      peerStore_Store (ip +:+ ":" +:+ port_) = Some err ->
      onDiscovered MAX_OUT resolver Peer_Connect peerStore_Get peerStore_Store addr s
      = (tt, stored (ip +:+ ":" +:+ port_) s))
  /\ (forall ip port_,
      parsePeerAddress resolver addr (manager s) = inr (ip, port_) ->
      peerStore_Store (ip +:+ ":" +:+ port_) = None ->
      snd (onDiscovered MAX_OUT resolver Peer_Connect peerStore_Get peerStore_Store
                        addr s)
      = snd (connectToPeers MAX_OUT Peer_Connect peerStore_Get
                            (stored (ip +:+ ":" +:+ port_) s))).
Proof.
  unfold onDiscovered, bind, getManager, ret, emit, stored. simpl.
  split; [|split].
  - intros err ->. reflexivity.
  - intros ip q err -> ->. reflexivity.
  - intros ip q -> ->. by destruct (connectToPeers _ _ _ _).
Qed.

End FrameProofs.

(** ** Start-up and shutdown *)

Lemma matchAddrs_true (addrs : list Addr) (externalIP : string) :
  matchAddrs addrs externalIP = true <->
  exists a ip, In a addrs /\ addrIP a = Some ip /\ IP_String ip = externalIP.
Proof.
  induction addrs as [|a l IH]; simpl.
  - split; [discriminate | intros (? & ? & [] & _)].
  - destruct (addrIP a) as [ip|] eqn:E.
    + destruct (String.eqb_spec (IP_String ip) externalIP) as [Heq|Hne].
      * split; [|reflexivity]. intros _. exists a, ip. auto.
      * rewrite IH. split.
        -- intros (a' & ip' & Hin & Hip & Hs). exists a', ip'. auto.
        -- intros (a' & ip' & [<-|Hin] & Hip & Hs).
           ++ rewrite E in Hip. injection Hip as <-. contradiction.
           ++ exists a', ip'. auto.
    + rewrite IH. split.
      * intros (a' & ip' & Hin & Hip & Hs). exists a', ip'. auto.
      * intros (a' & ip' & [<-|Hin] & Hip & Hs); [congruence|].
        exists a', ip'. auto.
Qed.

Lemma matchIfaces_true (l : list (string + list Addr)) (externalIP : string) :
  matchIfaces l externalIP = true <->
  exists addrs a ip,
    In (inr addrs) l /\ In a addrs /\ addrIP a = Some ip /\ IP_String ip = externalIP.
Proof.
  induction l as [|[err|addrs] l IH]; simpl.
  - split; [discriminate | intros (? & ? & ? & [] & _)].
  - rewrite IH. split.
    + intros (x & a & ip & Hin & H). exists x, a, ip. auto.
    + intros (x & a & ip & [Hin|Hin] & H); [discriminate|]. exists x, a, ip. auto.
  - destruct (matchAddrs addrs externalIP) eqn:E.
    + split; [|reflexivity]. intros _.
      apply matchAddrs_true in E as (a & ip & H). exists addrs, a, ip. auto.
    + rewrite IH. split.
      * intros (x & a & ip & Hin & H). exists x, a, ip. auto.
      * intros (x & a & ip & [Hin|Hin] & H).
        -- injection Hin as <-.
           assert (matchAddrs addrs externalIP = true)
             by (apply matchAddrs_true; by exists a, ip).
           congruence.
        -- exists x, a, ip. auto.
Qed.

(** X20: [haveLocalIPMatch] answers true exactly when the interfaces
    could be listed and some interface whose addresses could be read has an
    address with a non-nil IP whose text is the external IP; it returns an
    error exactly when the interfaces could not be listed, and then answers
    false. *)
Theorem haveLocalIPMatch_spec (ifaces : string + list (string + list Addr))
    (externalIP : string) :
  (fst (haveLocalIPMatch ifaces externalIP) = true <->
   exists l addrs a ip,
     ifaces = inr l /\ In (inr addrs) l /\ In a addrs
     /\ addrIP a = Some ip /\ IP_String ip = externalIP)
  /\ (forall err,
        snd (haveLocalIPMatch ifaces externalIP) = Some err <-> ifaces = inl err)
  /\ (is_Some (snd (haveLocalIPMatch ifaces externalIP)) ->
      fst (haveLocalIPMatch ifaces externalIP) = false).
Proof.
  destruct ifaces as [e|l]; simpl.
  - split; [|split].
    + split; [discriminate | intros (? & ? & ? & ? & [=] & _)].
    + intros err. split; congruence.
    + reflexivity.
  - split; [|split].
    + rewrite matchIfaces_true. split.
      * intros (addrs & a & ip & H). exists l, addrs, a, ip. auto.
      * intros (l' & addrs & a & ip & [= <-] & H). exists addrs, a, ip. auto.
    + intros err. split; discriminate.
    + intros [x [=]].
Qed.

(** X21: what the detection at start-up leaves behind.  If the external
    IP cannot be found, the manager is as before.  If it is found, it
    becomes the node's IP, which is then never empty, everything but the IP
    and the open flag is as before, and the node is open exactly when a
    configured IP equals the one found or, with none configured, a local
    interface has it.  An open node advertises the IP found with its
    port; a new manager whose detection fails advertises nothing, to peers
    or to IRC. *)
Theorem reachability_detection (consensus : string + IP)
    (ifaces : string + list (string + list Addr)) (p : PeerManager) :
  let p' := detectReachability consensus ifaces p in
  (forall err, consensus = inl err -> p' = p)
  /\ (forall ip,
        consensus = inr ip ->
        myIP p' = IP_String ip
        /\ myIP p' <> ""
        /\ inPeers p' = inPeers p /\ outPeers p' = outPeers p
        /\ peer p' = peer p /\ port p' = port p /\ accept p' = accept p
        /\ irc p' = irc p /\ peerNonce p' = peerNonce p
        /\ privateIPBlocks p' = privateIPBlocks p
        /\ (open p' = true <->
            (myIP p <> "" /\ myIP p = IP_String ip)
            \/ (myIP p = "" /\ fst (haveLocalIPMatch ifaces (IP_String ip)) = true))
        /\ (open p' = true ->
            advertisedAddress p' = IP_String ip +:+ ":" +:+ Itoa (port p)))
  /\ (forall err myExternalIP peer_ port_ accept_ irc_ nonce,
        consensus = inl err ->
        p = NewPeerManager myExternalIP peer_ port_ accept_ irc_ nonce ->
        advertisedAddress p' = "" /\ ircPort p' = 0).
Proof.
  intros p'. subst p'. split; [|split].
  - intros err ->. reflexivity.
  - intros ip ->. unfold detectReachability, advertisedAddress. simpl.
    split; [reflexivity|]. split; [apply IP_String_nonempty|].
    do 8 (split; [reflexivity|]).
    assert (Hopen :
              (if negb (String.length (myIP p) =? 0)%nat
               then String.eqb (IP_String ip) (myIP p)
               else fst (haveLocalIPMatch ifaces (IP_String ip))) = true <->
              (myIP p <> "" /\ myIP p = IP_String ip)
              \/ (myIP p = "" /\ fst (haveLocalIPMatch ifaces (IP_String ip)) = true)).
    { destruct (myIP p) as [|c m] eqn:Em; simpl.
      - split; [intros H; right; auto | intros [[H _]|[_ H]]; [congruence | exact H]].
      - rewrite String.eqb_eq. split.
        + intros H. left. split; [discriminate | by symmetry].
        + intros [[_ H]|[H _]]; [by symmetry | discriminate]. }
    split; [exact Hopen|].
    intros Ho. by rewrite Ho.
  - intros err ip pr po ac ir no -> ->. split; reflexivity.
Qed.



Section ShutdownProofs.

Context (Peer_Shutdown : Peer -> PeerManager -> PeerManager).





End ShutdownProofs.


(** ** The further theorems at concrete nodes *)

Lemma accepted_address_invariants_witness :
  parsePeerAddress twoAddresses "seed.example.org:8831" exampleNode
    = inr ("198.51.100.7", "8831")
  /\ allDigits "8831".
Proof.
  assert (H : parsePeerAddress twoAddresses "seed.example.org:8831" exampleNode
              = inr ("198.51.100.7", "8831")) by (vm_compute; reflexivity).
  split; [exact H|].
  exact (proj1 (proj2 (proj2 (accepted_address_invariants twoAddresses _ _ _ _ H)))).
Defined.

Lemma validator_reads_only_witness :
  parsePeerAddress twoAddresses "seed.example.org:8831" exampleNode
  = parsePeerAddress oneAddress "seed.example.org:8831" (manager connectedState).
Proof.
  apply validator_reads_only; try reflexivity.
  intros host. unfold twoAddresses, oneAddress.
  destruct (String.eqb host "seed.example.org"); reflexivity.
Defined.

Lemma reserved_ipv4_ranges_witness :
  inReservedBlock (privateIPBlocks anonymousNode) [xac; x1f; xff; xfe] = true
  /\ ~ inReservedBlock (privateIPBlocks anonymousNode) [xac; x20; x00; x01] = true.
Proof.
  split.
  - apply (proj2 (reserved_ipv4_ranges [xac; x1f; xff; xfe] xac x1f xff xfe
                    "" "" 8333 true false "1804289383" eq_refl)).
    right; right; left. vm_compute. repeat split; discriminate.
  - intros H.
    apply (proj1 (reserved_ipv4_ranges [xac; x20; x00; x01] xac x20 x00 x01
                    "" "" 8333 true false "1804289383" eq_refl)) in H.
    vm_compute in H. destruct H as [H|[H|[[_ [_ H]]|[H _]]]];
      try discriminate. by apply H.
Defined.

Lemma reserved_ipv6_ranges_witness :
  inReservedBlock (privateIPBlocks anonymousNode) ipv6Address = false.
Proof.
  destruct (inReservedBlock (privateIPBlocks anonymousNode) ipv6Address) eqn:E;
    [|reflexivity].
  apply (proj1 (reserved_ipv6_ranges ipv6Address "" "" 8333 true false "1804289383"
                  eq_refl eq_refl)) in E.
  destruct E as [E|(b0 & b1 & rest & E & H)]; [discriminate|].
  injection E as <- <- _. vm_compute in H.
  destruct H as [[H _]|[H _]]; [discriminate | by exfalso; apply H].
Defined.

Lemma canonical_ipv4_validates_again_witness :
  parsePeerAddress noResolver ("198.51.100.7" +:+ ":" +:+ "8831") exampleNode
  = inr ("198.51.100.7", "8831").
Proof.
  apply (canonical_ipv4_validates_again twoAddresses noResolver
           "seed.example.org:8831" "seed.example.org" "198.51.100.7" "8831"
           publicIP [[x0a; x00; x00; x01]] exampleNode);
    try (vm_compute; reflexivity).
  by exists publicIP.
Defined.

Lemma canonical_ipv6_is_malformed_witness :
  parsePeerAddress ipv6Resolver "v6.example.org:8831" exampleNode
    = inr ("2001:db8::1", "8831")
  /\ parsePeerAddress noResolver ("2001:db8::1" +:+ ":" +:+ "8831") anonymousNode
     = inl (MalformedPeerAddress ("2001:db8::1" +:+ ":" +:+ "8831")).
Proof.
  split; [vm_compute; reflexivity|].
  apply (canonical_ipv6_is_malformed ipv6Resolver noResolver
           "v6.example.org:8831" "v6.example.org" "2001:db8::1" "8831"
           ipv6Address [] exampleNode anonymousNode);
    vm_compute; reflexivity.
Defined.

Lemma connect_success_then_close_witness :
  fst (connect 8 acceptAll "192.0.2.1:8831" exampleState) = None
  /\ runCallback (callRemoveFromOutboundSet "192.0.2.1:8831")
       (manager (snd (connect 8 acceptAll "192.0.2.1:8831" exampleState)))
     = exampleNode.
Proof.
  destruct (connect_success_then_close 8 acceptAll "192.0.2.1:8831" exampleState
              ltac:(vm_compute; reflexivity) eq_refl) as (H1 & _ & _ & _ & H5).
  split; [exact H1 | exact H5].
Defined.

Lemma connectToPeers_explicit_peer_witness :
  connectToPeers 8 acceptAll savedPeers explicitState
  = connect 8 acceptAll "192.0.2.1:8831" explicitState.
Proof.
  apply (proj1 (proj2 (connectToPeers_explicit_peer 8 acceptAll savedPeers explicitState
                         ltac:(discriminate)))).
  reflexivity.
Defined.

Lemma connectToPeers_discovery_witness :
  connectToPeers 8 acceptAll brokenStore exampleState
    = (Some "store closed", mkState exampleNode 0 [evGet 8])
  /\ handles (snd (connectToPeers 8 refuseAll savedPeers exampleState)) = 3%nat.
Proof.
  split.
  - apply (proj1 (connectToPeers_discovery 8 acceptAll brokenStore exampleState
                    eq_refl ltac:(vm_compute; reflexivity)) "store closed").
    reflexivity.
  - apply (proj2 (connectToPeers_discovery 8 refuseAll savedPeers exampleState
                    eq_refl ltac:(vm_compute; reflexivity))
                 ["192.0.2.1:8831"; "192.0.2.2:8831"; "192.0.2.3:8831"] eq_refl).
Defined.

Lemma full_inbound_set_admits_nobody_witness :
  len (inPeers (manager twoInboundState)) = 2
  /\ fst (peerHandler 2 noResolver freshRequest twoInboundState) = shutDown 2%nat.
Proof.
  assert (Hfull : len (inPeers (manager twoInboundState)) = 2)
    by (vm_compute; reflexivity).
  split; [exact Hfull|].
  destruct (full_inbound_set_admits_nobody 2 noResolver freshRequest twoInboundState
              "192.0.2.9:51234" ltac:(vm_compute; discriminate) Hfull eq_refl)
    as [H|(H & _)]; [|exact H].
  vm_compute in H. discriminate.
Defined.

Lemma accepted_inbound_then_close_witness :
  fst (peerHandler 128 noResolver freshRequest exampleState) = running 0%nat
  /\ inPeers (manager (snd (peerHandler 128 noResolver freshRequest exampleState)))
       !! "192.0.2.9:51234" = Some 0%nat.
Proof.
  assert (H : fst (peerHandler 128 noResolver freshRequest exampleState)
              = running 0%nat) by (vm_compute; reflexivity).
  split; [exact H|].
  exact (proj1 (proj2 (proj2
           (accepted_inbound_then_close 128 noResolver freshRequest exampleState
                                        0%nat H)))).
Defined.

Lemma system_keeps_limits_witness :
  bounded 8 128 (manager exampleState)
  /\ bounded 8 128
       (manager (snd (forEach busyDay
                        (systemStep 8 128 twoAddresses acceptAll savedPeers storeOk)
                        exampleState))).
Proof.
  assert (Hb : bounded 8 128 (manager exampleState)).
  { unfold bounded, len. simpl. rewrite map_size_empty. lia. }
  split; [exact Hb|].
  exact (system_keeps_limits 8 128 twoAddresses acceptAll savedPeers storeOk
           busyDay exampleState Hb).
Defined.

Lemma handles_owned_once_witness :
  ownedOnce
    (manager (snd (forEach busyDay
                     (systemStep 8 128 twoAddresses acceptAll savedPeers storeOk)
                     exampleState))).
Proof.
  apply (handles_owned_once 8 128 twoAddresses acceptAll savedPeers storeOk
           busyDay exampleState).
  - intros a h [H|H]; simpl in H; by rewrite lookup_empty in H.
  - repeat split; intros a b h H; simpl in H; by rewrite lookup_empty in H.
Defined.

Lemma stores_only_validated_witness :
  In (evStore "192.0.2.1:8831") (events exampleState)
  \/ exists addr ip port_,
       (Loop (Discovered "192.0.2.1:8831") = Loop (Discovered addr)
        \/ exists r, Loop (Discovered "192.0.2.1:8831") = Inbound r
                     /\ hdrPeerAddress r = addr)
       /\ parsePeerAddress twoAddresses addr (manager exampleState) = inr (ip, port_)
       /\ "192.0.2.1:8831" = ip +:+ ":" +:+ port_.
Proof.
  apply (proj1 (stores_only_validated 8 128 twoAddresses acceptAll savedPeers storeOk)
               (Loop (Discovered "192.0.2.1:8831")) exampleState "192.0.2.1:8831").
  vm_compute. repeat (first [left; reflexivity | right]).
Defined.

